(** * FrameNavigationsObserver: navigation and load-state synchronisation

    A shallow embedding of [FrameNavigationsObserver] (the class that
    resolves [waitForLoad] / [waitForLocation] requests against a frame's
    navigation history) and of the pieces of its collaborators it reads.

    Conventions of the embedding:
    - JavaScript strings are [string]s, one character per code unit;
      string enums ([LoadStatus], [LocationTrigger], [NavigationReason])
      are the strings of their member names, as they are at run time.
    - command ids and timestamps are integers ([Z]); an option's
      [sinceCommandId], which the code tests with [Number.isInteger] and
      for truthiness, is a [JsNumber].
    - [undefined] and [null] are [None].
    - deferred results and timers live in a shared store ([World]) and are
      named by handles, so that two references to one deferred alias.
    - [logger.info] calls are not modelled. *)

From stdpp Require Import base option strings list gmap fin_maps.
From Stdlib Require Import ZArith Lia.

Local Open Scope string_scope.
Local Open Scope Z_scope.

(** ** JavaScript values *)

(** A JavaScript number, as far as the observer inspects one. [JsFrac n d]
    is the quotient [n / d]. *)
Inductive JsNumber :=
  | JsInt (z : Z)
  | JsFrac (n : Z) (d : positive)
  | JsNaN
  | JsInfinity (negative : bool).

(** [Number.isInteger(x) ? x : undefined] *)
Definition asInteger (x : option JsNumber) : option Z :=
  match x with
  | Some (JsInt z) => Some z
  | Some (JsFrac n d) => if (n mod Z.pos d =? 0) then Some (n / Z.pos d) else None
  | _ => None
  end.

(** Truthiness of an optional number: [undefined], [0] and [NaN] are falsy. *)
Definition truthyNumber (x : option JsNumber) : bool :=
  match x with
  | None => false
  | Some (JsInt z) => negb (z =? 0)
  | Some (JsFrac n d) => negb (n =? 0)
  | Some JsNaN => false
  | Some (JsInfinity _) => true
  end.

(** Truthiness of an optional integer ([!loadTrigger], [timeUntilReadyMs]). *)
Definition truthyZ (x : option Z) : bool :=
  match x with
  | Some z => negb (z =? 0)
  | None => false
  end.

(** Truthiness of an optional string: [undefined] and [''] are falsy. *)
Definition truthyString (x : option string) : bool :=
  match x with
  | Some s => negb (String.eqb s "")
  | None => false
  end.

(** [s.startsWith(p)] *)
Definition startsWith (s p : string) : bool := String.prefix p s.

Fixpoint dropString (n : nat) (s : string) : string :=
  match n, s with
  | O, _ => s
  | S n', String _ s' => dropString n' s'
  | S _, EmptyString => EmptyString
  end.

(** [s.replace(pattern, '')] for a string pattern: the first (leftmost)
    occurrence of [pattern] is removed; without one [s] is returned. *)
Fixpoint replaceWithEmpty (pattern s : string) : string :=
  if String.prefix pattern s then dropString (String.length pattern) s
  else match s with
       | EmptyString => EmptyString
       | String c s' => String c (replaceWithEmpty pattern s')
       end.

(** ** Enumerations (string enums of the interfaces package) *)

Module LoadStatus.
Definition HttpRedirected := "HttpRedirected".
Definition HttpResponded := "HttpResponded".
Definition DomContentLoaded := "DomContentLoaded".
Definition AllContentLoaded := "AllContentLoaded".
Definition PaintingStable := "PaintingStable".
End LoadStatus.

Module LocationTrigger.
Definition reload := "reload".
Definition change := "change".
(** [LocationTrigger[status]] is truthy *)
Definition isMember (status : string) : bool :=
  String.eqb status reload || String.eqb status change.
End LocationTrigger.

Definition ContentPaint := "ContentPaint".

(** ** Errors *)

Inductive Error :=
  | CanceledPromiseError (message : string)
  | TimeoutError (message : string)
  | AssertionError (message : string)
  | PlainError (message : string)
  | TypeError (message : string)
  | NavigationError (message : string).

Definition isCanceled (e : Error) : bool :=
  match e with CanceledPromiseError _ => true | _ => false end.

Definition isTimeout (e : Error) : bool :=
  match e with TimeoutError _ => true | _ => false end.

(** ** Commands *)

Module ICommandMeta.
Record t := mk { id : Z; name : string }.
End ICommandMeta.

(** ** The navigation timeline, as the observer reads it *)

Record INavigation := {
  startCommandId : Z;
  finalUrl : string;
  navigationReason : string;
  (** a JavaScript [Map]: keys in insertion order *)
  statusChanges : list (string * Z);
  (** handle of the entry's [resourceId] deferred *)
  resourceId : nat;
  navigationError : option Error;
}.

(** [statusChanges.has(k)] *)
Definition has (m : list (string * Z)) (k : string) : bool :=
  existsb (fun kv => String.eqb kv.1 k) m.

(** [statusChanges.get(k)] *)
Fixpoint get (m : list (string * Z)) (k : string) : option Z :=
  match m with
  | [] => None
  | (k', v) :: m' => if String.eqb k' k then Some v else get m' k
  end.

(** [statusChanges.keys()] *)
Definition keys (m : list (string * Z)) : list string := m.*1.

Record PaintStableStatus := {
  isStable : bool;
  timeUntilReadyMs : option Z;
}.

(** What [FrameNavigations] answers at one moment. [top], [hasLoadStatus]
    and [getPaintStableStatus] are members of that class, which owns the
    timeline; the observer only calls them, so they are inputs here. *)
Record FrameNavigations := {
  history : list INavigation;
  top : option INavigation;
  hasLoadStatus : string -> bool;
  getPaintStableStatus : PaintStableStatus;
}.

(** ** Deferred results and timers *)

Inductive Settlement :=
  | Pending
  | Fulfilled (value : option Z)
  | Rejected (error : Error).

(** Modelled from the spec: the deferred result that [createPromise] of
    commons/lib/utils returns; that module is missing. It is a completion
    object holding one of pending, resolved or rejected that transitions
    exactly once, with a deadline timer that rejects it with a timeout
    error unless it is settled first; [isResolved] is true once it has left
    the pending state. *)
Record Resolvable := {
  settlement : Settlement;
  timeout : option nat;
}.

(** What an armed timer will do when it fires. *)
Inductive TimerTask :=
  | Deadline (deferred : nat)
  | Settle (loadDate contentPaintDate : option Z).

Record Timer := {
  delay : Z;
  task : TimerTask;
}.

(** Calls made on deferred results, in program order. *)
Inductive Call :=
  | Create (p : nat) (timeoutMillis : Z)
  | Resolve (p : nat)
  | Reject (p : nat) (error : Error).

Record World := {
  deferreds : gmap nat Resolvable;
  (** the timers that are armed: neither fired nor cleared *)
  timers : gmap nat Timer;
  nextHandle : nat;
  calls : list Call;
}.

(** Modelled from the spec: [p.isResolved], true once the deferred has
    left the pending state. *)
Definition isResolved (w : World) (p : nat) : bool :=
  match deferreds w !! p with
  | Some {| settlement := Pending |} => false
  | Some _ => true
  | None => false
  end.

(** [clearTimeout(h)] *)
Definition clearTimeout (h : option nat) (w : World) : World :=
  match h with
  | Some h =>
      {| deferreds := deferreds w; timers := delete h (timers w);
         nextHandle := nextHandle w; calls := calls w |}
  | None => w
  end.

(** [setTimeout(task, ms).unref()] *)
Definition setTimeout (t : TimerTask) (ms : Z) (w : World) : nat * World :=
  (nextHandle w,
   {| deferreds := deferreds w;
      timers := <[nextHandle w := {| delay := ms; task := t |}]> (timers w);
      nextHandle := S (nextHandle w); calls := calls w |}).

(** Modelled from the spec: [createPromise(timeoutMillis)] allocates a
    pending deferred and arms its deadline timer. *)
Definition createPromise (timeoutMillis : Z) (w : World) : nat * World :=
  let p := nextHandle w in
  let t := S p in
  (p,
   {| deferreds := <[p := {| settlement := Pending; timeout := Some t |}]> (deferreds w);
      timers := <[t := {| delay := timeoutMillis; task := Deadline p |}]> (timers w);
      nextHandle := S t;
      calls := calls w ++ [Create p timeoutMillis] |}).

(** Modelled from the spec: the one transition of a deferred, which also
    disarms its deadline timer; a settled deferred is left alone. *)
Definition settle (p : nat) (o : Settlement) (w : World) : World :=
  match deferreds w !! p with
  | Some {| settlement := Pending; timeout := t |} =>
      clearTimeout t
        {| deferreds := <[p := {| settlement := o; timeout := t |}]> (deferreds w);
           timers := timers w; nextHandle := nextHandle w; calls := calls w |}
  | _ => w
  end.

Definition logCall (c : Call) (w : World) : World :=
  {| deferreds := deferreds w; timers := timers w;
     nextHandle := nextHandle w; calls := calls w ++ [c] |}.

(** Modelled from the spec: [p.resolve()] *)
Definition resolve (p : nat) (w : World) : World :=
  settle p (Fulfilled None) (logCall (Resolve p) w).

(** Modelled from the spec: [p.reject(e)] *)
Definition reject (p : nat) (e : Error) (w : World) : World :=
  settle p (Rejected e) (logCall (Reject p e) w).

(** ** The observer *)

Record FrameNavigationsObserver := {
  defaultWaitForLocationCommandId : Z;
  waitingForLoadTimeout : option nat;
  resourceIdResolvable : option nat;
  statusTriggerResolvable : option nat;
  statusTrigger : option string;
  statusTriggerStartCommandId : option Z;
}.

(** The state of a freshly constructed observer. *)
Definition newObserver : FrameNavigationsObserver :=
  {| defaultWaitForLocationCommandId := 0;
     waitingForLoadTimeout := None;
     resourceIdResolvable := None;
     statusTriggerResolvable := None;
     statusTrigger := None;
     statusTriggerStartCommandId := None |}.

Record State := {
  this : FrameNavigationsObserver;
  world : World;
}.

Definition emptyWorld : World :=
  {| deferreds := ∅; timers := ∅; nextHandle := 0%nat; calls := [] |}.

Definition initialState : State := {| this := newObserver; world := emptyWorld |}.

Definition onWorld (f : World -> World) (s : State) : State :=
  {| this := this s; world := f (world s) |}.

(** How a call ends: normally with a value, or by throwing. *)
Inductive Completion (A : Type) :=
  | Normal (a : A) (s : State)
  | Throw (e : Error) (s : State).
Arguments Normal {A} a s.
Arguments Throw {A} e s.

Definition stateOf {A} (c : Completion A) : State :=
  match c with Normal _ s => s | Throw _ s => s end.

(** *** willRunCommand *)

Definition nameStartsWithWaitFor (c : option ICommandMeta.t) : bool :=
  match c with
  | Some c => startsWith (ICommandMeta.name c) "waitFor"
  | None => false
  end.

(** One iteration of the loop over [previousCommands]; the accumulator is
    the cursor and [last]. *)
Definition willRunCommand_step (acc : Z * option ICommandMeta.t)
    (command : ICommandMeta.t) : Z * option ICommandMeta.t :=
  let cursor :=
    if String.eqb (ICommandMeta.name command) "goto"
    then ICommandMeta.id command else acc.1 in
  let cursor :=
    if nameStartsWithWaitFor acc.2
       && negb (startsWith (ICommandMeta.name command) "waitFor")
    then ICommandMeta.id command else cursor in
  (cursor, Some command).

Definition willRunCommand (newCommand : ICommandMeta.t)
    (previousCommands : list ICommandMeta.t)
    (o : FrameNavigationsObserver) : FrameNavigationsObserver :=
  let acc := fold_left willRunCommand_step previousCommands
               (defaultWaitForLocationCommandId o, None) in
  let cursor :=
    if String.eqb (ICommandMeta.name newCommand) "waitForLocation"
       && match acc.2 with
          | Some last =>
              startsWith (ICommandMeta.name last) "waitFor"
              && negb (String.eqb (ICommandMeta.name last) "waitForMillis")
          | None => false
          end
    then ICommandMeta.id newCommand else acc.1 in
  {| defaultWaitForLocationCommandId := cursor;
     waitingForLoadTimeout := waitingForLoadTimeout o;
     resourceIdResolvable := resourceIdResolvable o;
     statusTriggerResolvable := statusTriggerResolvable o;
     statusTrigger := statusTrigger o;
     statusTriggerStartCommandId := statusTriggerStartCommandId o |}.

(** *** hasLocationTrigger *)

Definition isNavigationReload (reason : string) : bool :=
  String.eqb reason "httpHeaderRefresh" || String.eqb reason "metaTagRefresh"
  || String.eqb reason "reload".

Definition isInPageUrlAdjust (previousLoadedUrl : string) (h : INavigation) : bool :=
  String.eqb (navigationReason h) "inPage"
  && (Z.of_nat (String.length (replaceWithEmpty previousLoadedUrl (finalUrl h))) <=? 1).

(** The value of [isLocationChange] for an entry with [isMatch]. *)
Definition isLocationChange (trigger : string) (previousLoadedUrl : option string)
    (h : INavigation) : bool :=
  let viaReload :=
    if String.eqb trigger LocationTrigger.reload
    then isNavigationReload (navigationReason h) else false in
  match previousLoadedUrl with
  | Some prev =>
      if String.eqb trigger LocationTrigger.change
         && truthyString previousLoadedUrl
         && negb (String.eqb prev (finalUrl h))
      then (if isInPageUrlAdjust prev h then viaReload else true)
      else viaReload
  | None => viaReload
  end.

(** Does this entry settle a URL: the update of [previousLoadedUrl]. *)
Definition isSettled (h : INavigation) : bool :=
  (has (statusChanges h) LoadStatus.HttpResponded
   || has (statusChanges h) LoadStatus.DomContentLoaded)
  && negb (has (statusChanges h) LoadStatus.HttpRedirected).

(** The loop of [hasLocationTrigger], from a given [previousLoadedUrl]. *)
Fixpoint hasLocationTrigger_loop (previousLoadedUrl : option string)
    (trigger : string) (sinceCommandId : Z) (entries : list INavigation) : bool :=
  match entries with
  | [] => false
  | h :: rest =>
      if (sinceCommandId <=? startCommandId h)
         && isLocationChange trigger previousLoadedUrl h
      then true
      else hasLocationTrigger_loop
             (if isSettled h then Some (finalUrl h) else previousLoadedUrl)
             trigger sinceCommandId rest
  end.

Definition hasLocationTrigger (navigations : FrameNavigations)
    (trigger : string) (sinceCommandId : Z) : bool :=
  hasLocationTrigger_loop None trigger sinceCommandId (history navigations).

Record IWaitForOptions := {
  timeoutMs : option Z;
  sinceCommandId : option JsNumber;
}.

(** The default [options = {}]. *)
Definition noOptions : IWaitForOptions :=
  {| timeoutMs := None; sinceCommandId := None |}.

(** What a wait call hands back to its caller. *)
Inductive Returned :=
  | ReturnedUndefined
  | ResolvedPromise
  | PromiseOf (p : nat).

(** How far [waitForNavigationResourceId] gets at once. *)
Inductive ResourceIdWait :=
  | ResourceId (id : option Z)
  | Raises (e : Error)
  | Awaits (p : nat).

Definition setTrigger (resolvable : option nat) (trigger : option string)
    (start : option Z) (o : FrameNavigationsObserver) : FrameNavigationsObserver :=
  {| defaultWaitForLocationCommandId := defaultWaitForLocationCommandId o;
     waitingForLoadTimeout := waitingForLoadTimeout o;
     resourceIdResolvable := resourceIdResolvable o;
     statusTriggerResolvable := resolvable;
     statusTrigger := trigger;
     statusTriggerStartCommandId := start |}.

Definition setWaitingForLoadTimeout (h : option nat)
    (o : FrameNavigationsObserver) : FrameNavigationsObserver :=
  {| defaultWaitForLocationCommandId := defaultWaitForLocationCommandId o;
     waitingForLoadTimeout := h;
     resourceIdResolvable := resourceIdResolvable o;
     statusTriggerResolvable := statusTriggerResolvable o;
     statusTrigger := statusTrigger o;
     statusTriggerStartCommandId := statusTriggerStartCommandId o |}.

Definition setResourceIdResolvable (p : option nat)
    (o : FrameNavigationsObserver) : FrameNavigationsObserver :=
  {| defaultWaitForLocationCommandId := defaultWaitForLocationCommandId o;
     waitingForLoadTimeout := waitingForLoadTimeout o;
     resourceIdResolvable := p;
     statusTriggerResolvable := statusTriggerResolvable o;
     statusTrigger := statusTrigger o;
     statusTriggerStartCommandId := statusTriggerStartCommandId o |}.

(** *** resolvePendingStatus *)

Definition resolvePendingStatus (resolvedWithStatus : string) (s : State) : State :=
  match statusTriggerResolvable (this s) with
  | Some p =>
      if isResolved (world s) p then s
      else {| this := setTrigger None None None (this s);
              world := resolve p (clearTimeout (waitingForLoadTimeout (this s)) (world s)) |}
  | None => s
  end.

(** *** cancelWaiting *)

(** The body of the loop of [cancelWaiting] for one of the two deferreds. *)
Definition cancelOne (cancelMessage : string) (w : World) (promise : option nat) : World :=
  match promise with
  | Some p =>
      if isResolved w p then w else reject p (CanceledPromiseError cancelMessage) w
  | None => w
  end.

Definition cancelWaiting (cancelMessage : string) (s : State) : State :=
  onWorld
    (fun w =>
       fold_left (cancelOne cancelMessage)
         [resourceIdResolvable (this s); statusTriggerResolvable (this s)]
         (clearTimeout (waitingForLoadTimeout (this s)) w))
    s.

(** *** createStatusTriggeredPromise *)

Definition createStatusTriggeredPromise (status : string) (timeoutMs : option Z)
    (sinceCommandId : option Z) (s : State) : nat * State :=
  let s1 :=
    match statusTriggerResolvable (this s) with
    | Some _ => cancelWaiting "New location trigger created" s
    | None => s
    end in
  let pw := createPromise (default 60000 timeoutMs) (world s1) in
  (pw.1, {| this := setTrigger (Some pw.1) (Some status) sinceCommandId (this s1);
            world := pw.2 |}).

(** *** waitForNavigationResourceId *)

(** The part after the [await]: [top?.navigationError] is thrown, else the
    awaited id is returned. *)
Definition afterResourceId (top : option INavigation) (id : option Z) : ResourceIdWait :=
  match top ≫= navigationError with
  | Some e => Raises e
  | None => ResourceId id
  end.

Definition waitForNavigationResourceId (navigations : FrameNavigations)
    (s : State) : ResourceIdWait * State :=
  let s1 := {| this := setResourceIdResolvable (resourceId <$> top navigations) (this s);
               world := world s |} in
  match resourceIdResolvable (this s1) with
  | None => (afterResourceId (top navigations) None, s1)
  | Some p =>
      match settlement <$> deferreds (world s1) !! p with
      | Some (Fulfilled id) => (afterResourceId (top navigations) id, s1)
      | Some (Rejected e) => (Raises e, s1)
      | _ => (Awaits p, s1)
      end
  end.

Section Pipeline.

(** The table [LoadStatusPipeline] and the enum [LoadStatus] are declared
    in interfaces/Location, which is missing, so both are parameters:
    [LoadStatusPipeline k] is the table's entry for key [k], and
    [isLoadStatus k] says that [LoadStatus[k]] is truthy. *)
Variable LoadStatusPipeline : string -> option Z.
Variable isLoadStatus : string -> bool.

(** The rank the loop of [onLoadStatusChange] compares for a key. *)
Definition pipelineStatus (status : string) : option Z :=
  if String.eqb status LoadStatus.AllContentLoaded
  then LoadStatusPipeline LoadStatus.AllContentLoaded
  else LoadStatusPipeline status.

(** [pipelineStatus >= loadTrigger], false for [undefined] *)
Definition reaches (loadTrigger : Z) (status : string) : bool :=
  match pipelineStatus status with
  | Some r => loadTrigger <=? r
  | None => false
  end.

(** The loop over [statusChanges.keys()]: the status it resolves with. *)
Fixpoint firstReaching (loadTrigger : Z) (ks : list string) : option string :=
  match ks with
  | [] => None
  | status :: rest =>
      if String.eqb status LoadStatus.HttpRedirected then firstReaching loadTrigger rest
      else if reaches loadTrigger status then Some status
      else firstReaching loadTrigger rest
  end.

(** *** waitForPageLoaded *)

Definition waitForPageLoaded (navigations : FrameNavigations) (s : State)
    : Completion unit :=
  let s1 := onWorld (clearTimeout (waitingForLoadTimeout (this s))) s in
  let status := getPaintStableStatus navigations in
  let s2 := if isStable status then resolvePendingStatus "PaintingStable + Load" s1
            else s1 in
  if negb (isStable status) && truthyZ (timeUntilReadyMs status) then
    match top navigations with
    | None => Throw (TypeError "Cannot read properties of undefined") s2
    | Some t =>
        let hw :=
          setTimeout
            (Settle (get (statusChanges t) LoadStatus.AllContentLoaded)
                    (get (statusChanges t) ContentPaint))
            (default 0 (timeUntilReadyMs status)) (world s2) in
        Normal tt {| this := setWaitingForLoadTimeout (Some hw.1) (this s2);
                     world := hw.2 |}
    end
  else Normal tt s2.

(** *** onLoadStatusChange *)

Definition isLocationTrigger (trigger : option string) : bool :=
  match trigger with
  | Some t => String.eqb t LocationTrigger.change || String.eqb t LocationTrigger.reload
  | None => false
  end.

Definition onLoadStatusChange (navigations : FrameNavigations) (s : State)
    : Completion unit :=
  if isLocationTrigger (statusTrigger (this s)) then
    let trigger := default "" (statusTrigger (this s)) in
    (* a comparison with an undefined start command id is false *)
    if match statusTriggerStartCommandId (this s) with
       | Some since => hasLocationTrigger navigations trigger since
       | None => false
       end
    then Normal tt (resolvePendingStatus trigger s)
    else Normal tt s
  else
    let loadTrigger := statusTrigger (this s) ≫= LoadStatusPipeline in
    match statusTriggerResolvable (this s), statusTrigger (this s), loadTrigger with
    | Some p, Some trigger, Some rank =>
        if isResolved (world s) p || negb (truthyZ loadTrigger) then Normal tt s
        else if String.eqb trigger LoadStatus.PaintingStable
        then waitForPageLoaded navigations s
        else
          match top navigations with
          | None => Throw (TypeError "Cannot read properties of undefined") s
          | Some t =>
              match firstReaching rank (keys (statusChanges t)) with
              | Some status => Normal tt (resolvePendingStatus status s)
              | None => Normal tt s
              end
          end
    | _, _, _ => Normal tt s
    end.

(** *** waitForLocation *)

Definition waitForLocation (status : string) (options : IWaitForOptions)
    (navigations : FrameNavigations) (s : State) : Completion Returned :=
  if negb (LocationTrigger.isMember status)
  then Throw (AssertionError ("Invalid location status: " ++ status)) s
  else
    let since :=
      default (defaultWaitForLocationCommandId (this s))
              (asInteger (sinceCommandId options)) in
    if hasLocationTrigger navigations status since then Normal ResolvedPromise s
    else
      let ps := createStatusTriggeredPromise status (timeoutMs options) (Some since) s in
      Normal (PromiseOf ps.1) ps.2.

(** *** waitForLoad *)

Definition waitForLoad (status : string) (options : IWaitForOptions)
    (navigations : FrameNavigations) (s : State) : Completion Returned :=
  if negb (isLoadStatus status)
  then Throw (AssertionError ("Invalid load status: " ++ status)) s
  else if truthyNumber (sinceCommandId options)
  then Throw (PlainError "Not implemented") s
  else if hasLoadStatus navigations status then Normal ReturnedUndefined s
  else
    let ps := createStatusTriggeredPromise status (timeoutMs options) None s in
    match top navigations with
    | Some _ =>
        match onLoadStatusChange navigations ps.2 with
        | Normal _ s' => Normal (PromiseOf ps.1) s'
        | Throw e s' => Throw e s'
        end
    | None => Normal (PromiseOf ps.1) ps.2
    end.

Definition waitForReady (navigations : FrameNavigations) (s : State)
    : Completion Returned :=
  waitForLoad LoadStatus.DomContentLoaded noOptions navigations s.

(** *** Timers firing *)

(** The run time fires the armed timer [h]: a deadline rejects its
    deferred with a timeout error, the settlement timer runs the closure
    armed by [waitForPageLoaded]. *)
Definition fireTimer (h : nat) (s : State) : State :=
  match timers (world s) !! h with
  | Some {| task := Deadline p |} =>
      onWorld (fun w => reject p (TimeoutError "Timeout waiting for promise")
                          (clearTimeout (Some h) w)) s
  | Some {| task := Settle loadDate contentPaintDate |} =>
      resolvePendingStatus "TimeElapsed" (onWorld (clearTimeout (Some h)) s)
  | None => s
  end.

(** *** Everything that can happen to an observer *)

Inductive Action :=
  | WillRunCommand (newCommand : ICommandMeta.t) (previousCommands : list ICommandMeta.t)
  | WaitForLocation (status : string) (options : IWaitForOptions)
      (navigations : FrameNavigations)
  | WaitForLoad (status : string) (options : IWaitForOptions)
      (navigations : FrameNavigations)
  | WaitForNavigationResourceId (navigations : FrameNavigations)
  | CancelWaiting (cancelMessage : string)
  (** the timeline emits 'status-change' *)
  | StatusChange (navigations : FrameNavigations)
  (** the run time fires an armed timer *)
  | TimerFires (h : nat)
  (** the owner of a deferred (the timeline, for [resourceId]) settles it *)
  | Settles (p : nat) (outcome : Settlement).

Definition perform (s : State) (a : Action) : State :=
  match a with
  | WillRunCommand newCommand previousCommands =>
      {| this := willRunCommand newCommand previousCommands (this s); world := world s |}
  | WaitForLocation status options navigations =>
      stateOf (waitForLocation status options navigations s)
  | WaitForLoad status options navigations =>
      stateOf (waitForLoad status options navigations s)
  | WaitForNavigationResourceId navigations =>
      (waitForNavigationResourceId navigations s).2
  | CancelWaiting cancelMessage => cancelWaiting cancelMessage s
  | StatusChange navigations => stateOf (onLoadStatusChange navigations s)
  | TimerFires h => fireTimer h s
  | Settles p outcome => onWorld (settle p outcome) s
  end.

Definition run (actions : list Action) (s : State) : State :=
  fold_left perform actions s.

(** The state after a sequence of 'status-change' notifications. *)
Definition notifyAll (snapshots : list FrameNavigations) (s : State) : State :=
  run (StatusChange <$> snapshots) s.

End Pipeline.

(** The settlement timers that are armed. *)
Definition isSettlementTimer (t : Timer) : bool :=
  match task t with Settle _ _ => true | Deadline _ => false end.

Definition settlementTimers (w : World) : gmap nat Timer :=
  filter (fun ht => isSettlementTimer ht.2 = true) (timers w).

(** The state of the deferred [p]. *)
Definition settlementOf (w : World) (p : nat) : option Settlement :=
  settlement <$> deferreds w !! p.


(** ** Specification-side definitions *)

(** *** Location changes *)

(** The most recently settled URL among [entries]. *)
Definition settledUrl (entries : list INavigation) : option string :=
  finalUrl <$> last (List.filter isSettled entries).

(** A URL touch-up that is not a change of location: an in-page navigation
    whose URL is the previous one with a single character gained at its end
    or at its start, or whose URL has at most one character. *)
Definition cosmeticInPageAdjust (previousLoadedUrl : string) (h : INavigation) : Prop :=
  navigationReason h = "inPage"
  ∧ ((∃ c, finalUrl h = previousLoadedUrl +:+ String c ""
           ∨ finalUrl h = String c previousLoadedUrl)
     ∨ (String.length (finalUrl h) ≤ 1)%nat).

(** The value of [previousLoadedUrl] after the loop has passed [entries]. *)
Definition previousAfter (previous : option string) (entries : list INavigation)
    : option string :=
  match settledUrl entries with
  | Some u => Some u
  | None => previous
  end.


(** *** The cursor of willRunCommand *)

(** Rules 1 and 2 of the cursor: does [command], run right after [before],
    become the anchor. *)
Definition movesCursor (before : option ICommandMeta.t) (command : ICommandMeta.t) : bool :=
  String.eqb (ICommandMeta.name command) "goto"
  || (nameStartsWithWaitFor before
      && negb (startsWith (ICommandMeta.name command) "waitFor")).

(** The id of the last command of [commands] that rules 1 and 2 select,
    searched from the end of the list. *)
Fixpoint lastAnchor (before : option ICommandMeta.t) (commands : list ICommandMeta.t)
    : option Z :=
  match commands with
  | [] => None
  | c :: rest =>
      match lastAnchor (Some c) rest with
      | Some a => Some a
      | None => if movesCursor before c then Some (ICommandMeta.id c) else None
      end
  end.

(** Rule 3: back-to-back location waits. *)
Definition reanchorsToNewCommand (newCommand : ICommandMeta.t)
    (previousCommands : list ICommandMeta.t) : bool :=
  String.eqb (ICommandMeta.name newCommand) "waitForLocation"
  && match last previousCommands with
     | Some l => startsWith (ICommandMeta.name l) "waitFor"
                 && negb (String.eqb (ICommandMeta.name l) "waitForMillis")
     | None => false
     end.

(** The cursor that the command sequence alone determines, if any. *)
Definition anchorOf (newCommand : ICommandMeta.t)
    (previousCommands : list ICommandMeta.t) : option Z :=
  if reanchorsToNewCommand newCommand previousCommands
  then Some (ICommandMeta.id newCommand)
  else lastAnchor None previousCommands.


(** *** Numbers *)

(** The mathematical value of a JavaScript number is the integer [z]. *)
Definition integerValue (x : JsNumber) (z : Z) : Prop :=
  match x with
  | JsInt i => i = z
  | JsFrac n d => n = z * Z.pos d
  | JsNaN | JsInfinity _ => False
  end.

(** *** Deferred results *)

(** Is the deferred [p] allocated and still pending. *)
Definition isPending (w : World) (p : nat) : bool :=
  match deferreds w !! p with
  | Some {| settlement := Pending |} => true
  | _ => false
  end.

(** The deferreds the observer tracks: resource id first, status trigger
    second, as [cancelWaiting] visits them. *)
Definition tracked (o : FrameNavigationsObserver) : list nat :=
  omap id [resourceIdResolvable o; statusTriggerResolvable o].

(** The tracked deferreds that are still pending, each listed once. *)
Definition pendingTracked (s : State) : list nat :=
  remove_dups (List.filter (isPending (world s)) (tracked (this s))).

(** Every tracked handle names a deferred of the store. *)
Definition allocated (s : State) : Prop :=
  Forall (fun p => is_Some (deferreds (world s) !! p)) (tracked (this s)).

(** The message of the cancellation made by a superseding wait. *)
Definition supersededMessage : string := "New location trigger created".

(** The store after the first statement of [cancelWaiting]. *)
Definition timeoutCleared (s : State) : World :=
  clearTimeout (waitingForLoadTimeout (this s)) (world s).

(** The store after the first iteration of the loop of [cancelWaiting]. *)
Definition resourceCanceled (cancelMessage : string) (s : State) : World :=
  cancelOne cancelMessage (timeoutCleared s) (resourceIdResolvable (this s)).

(** *** Load waits *)

(** Does the top entry record a milestone, other than [HttpRedirected],
    whose pipeline rank is at least [rank]. *)
Definition reachedAt (LoadStatusPipeline : string -> option Z) (rank : Z)
    (navigations : FrameNavigations) : bool :=
  match top navigations with
  | Some t =>
      existsb (fun k => negb (String.eqb k LoadStatus.HttpRedirected)
                        && reaches LoadStatusPipeline rank k)
              (keys (statusChanges t))
  | None => false
  end.

(** The trigger for [status] is registered with deferred [p], and pending. *)
Definition registered (status : string) (p : nat) (s : State) : Prop :=
  statusTrigger (this s) = Some status
  ∧ statusTriggerResolvable (this s) = Some p
  ∧ isPending (world s) p = true.

(** The trigger has been resolved and forgotten. *)
Definition resolved (p : nat) (s : State) : Prop :=
  settlementOf (world s) p = Some (Fulfilled None)
  ∧ statusTrigger (this s) = None.

(** *** Settlement timers *)

(** Every armed settlement timer is the one the observer remembers. *)
Definition oneSettlementTimer (s : State) : Prop :=
  ∀ h t, timers (world s) !! h = Some t → isSettlementTimer t = true →
         waitingForLoadTimeout (this s) = Some h.

(** The settlement timers armed in [w'] were armed in [w] already. *)
Definition noNewSettlementTimer (w w' : World) : Prop :=
  ∀ h t, timers w' !! h = Some t → isSettlementTimer t = true →
         timers w !! h = Some t.

(** A step that neither arms a settlement timer nor forgets the handle. *)
Definition quiet (s s' : State) : Prop :=
  waitingForLoadTimeout (this s') = waitingForLoadTimeout (this s)
  ∧ noNewSettlementTimer (world s) (world s').

(** *** Registration of a wait *)

(** The wait call [a], made in state [s], registers a trigger: it returns
    the deferred [q] and leaves the state [s']. *)
Definition registersBy (LoadStatusPipeline : string -> option Z)
    (isLoadStatus : string -> bool) (a : Action) (s : State) (q : nat) (s' : State)
    : Prop :=
  match a with
  | WaitForLocation status options navigations =>
      waitForLocation status options navigations s = Normal (PromiseOf q) s'
  | WaitForLoad status options navigations =>
      waitForLoad LoadStatusPipeline isLoadStatus status options navigations s
      = Normal (PromiseOf q) s'
  | _ => False
  end.

(** The timeout a wait call asks for. *)
Definition timeoutOf (a : Action) : option Z :=
  match a with
  | WaitForLocation _ options _ | WaitForLoad _ options _ => timeoutMs options
  | _ => None
  end.

(** ** Concrete inputs *)

Definition cmd (i : Z) (n : string) := ICommandMeta.mk i n.


Definition entry (start : Z) (url reason : string) (statuses : list (string * Z))
    : INavigation :=
  {| startCommandId := start; finalUrl := url; navigationReason := reason;
     statusChanges := statuses; resourceId := 0%nat; navigationError := None |}.

(** A timeline with the given history, whose current entry is the last. *)
Definition timelineOf (entries : list INavigation) : FrameNavigations :=
  {| history := entries; top := last entries;
     hasLoadStatus := fun _ => false;
     getPaintStableStatus := {| isStable := false; timeUntilReadyMs := None |} |}.

Definition settledEntry : INavigation :=
  entry 0 "https://a/" "userInitiated"
    [(LoadStatus.HttpResponded, 10); (LoadStatus.DomContentLoaded, 20)].

Definition lostSlashEntry : INavigation := entry 1 "https://a" "inPage" [].

Definition settledNoSlashEntry : INavigation :=
  entry 0 "https://a" "userInitiated" [(LoadStatus.HttpResponded, 10)].

Definition gainedSlashEntry : INavigation := entry 1 "https://a/" "inPage" [].

Definition leadingCharacterEntry : INavigation := entry 1 "xhttps://a" "inPage" [].

(** Modelled from the spec: a pipeline table that ranks the milestones in
    the order the spec gives (HttpResponded < DomContentLoaded <
    AllContentLoaded < ContentPaint < PaintingStable); the table of
    interfaces/Location is missing. The properties below hold for every
    table, and this one only instantiates them. *)
Definition examplePipeline (k : string) : option Z :=
  if String.eqb k LoadStatus.HttpResponded then Some 1
  else if String.eqb k LoadStatus.DomContentLoaded then Some 2
  else if String.eqb k LoadStatus.AllContentLoaded then Some 3
  else if String.eqb k ContentPaint then Some 4
  else if String.eqb k LoadStatus.PaintingStable then Some 5
  else None.

(** The load statuses that the observer itself names. *)
Definition exampleIsLoadStatus (k : string) : bool :=
  existsb (String.eqb k)
    [LoadStatus.HttpRedirected; LoadStatus.HttpResponded; LoadStatus.DomContentLoaded;
     LoadStatus.AllContentLoaded; LoadStatus.PaintingStable].

(** A page that has answered, then has its DOM, then has painted. *)
Definition respondedEntry : INavigation :=
  entry 1 "https://a/" "userInitiated" [(LoadStatus.HttpResponded, 10)].

Definition domLoadedEntry : INavigation :=
  entry 1 "https://a/" "userInitiated"
    [(LoadStatus.HttpResponded, 10); (LoadStatus.DomContentLoaded, 20)].

Definition paintedEntry : INavigation :=
  entry 1 "https://a/" "userInitiated"
    [(LoadStatus.HttpResponded, 10); (LoadStatus.DomContentLoaded, 20);
     (ContentPaint, 30)].

(** The timeline at [e], with the given answer of [getPaintStableStatus]. *)
Definition timelineAt (e : INavigation) (stable : bool) (untilReady : option Z)
    : FrameNavigations :=
  {| history := [e]; top := Some e;
     hasLoadStatus := fun _ => false;
     getPaintStableStatus := {| isStable := stable; timeUntilReadyMs := untilReady |} |}.

(** A store in which the timeline has created the [resourceId] deferred of
    its entry, handle 0. *)
Definition resourceWorld : World :=
  {| deferreds := {[ 0%nat := {| settlement := Pending; timeout := None |} ]};
     timers := ∅; nextHandle := 1%nat; calls := [] |}.

(** An observer that awaits the resource id of the top entry and a change
    of location. *)
Definition busyState : State :=
  run examplePipeline exampleIsLoadStatus
    [WaitForNavigationResourceId (timelineAt respondedEntry false None);
     WaitForLocation LocationTrigger.change noOptions
       (timelineAt respondedEntry false None)]
    {| this := newObserver; world := resourceWorld |}.

Definition zeroSinceCommandId : IWaitForOptions :=
  {| timeoutMs := None; sinceCommandId := Some (JsInt 0) |}.

(** ** More specification-side definitions *)

(** The trigger is a location trigger registered with deferred [p] for the
    scope [since], and pending. *)
Definition registeredSince (status : string) (since : Z) (p : nat) (s : State) : Prop :=
  registered status p s ∧ statusTriggerStartCommandId (this s) = Some since.

(** The timeline reports a stable painting. *)
Definition stableAt (navigations : FrameNavigations) : bool :=
  isStable (getPaintStableStatus navigations).

(** ** The wait timer (commons/Timer.ts)

    [process.hrtime] and what is computed from it ([elapsedMillis],
    [isExpired], [throwIfExpired]) read the clock in floating point and are
    not embedded; nor is the race of [waitForPromise], which depends on the
    order in which promises settle. *)

Module WaitTimer.

(** An entry of a registry: the deferred that its [reject] rejects, and the
    handle of the timeout. *)
Record IRegistry := {
  reject : nat;
  timeout : nat;
}.

(** A [Timer] object; [registry] is a reference to the shared array. *)
Record Timer := {
  timeoutMillis : Z;
  registry : option nat;
  timerTimeout : nat;
  timeoutMessage : string;
  expirePromise : nat;
}.

Record Heap := {
  (** the deferred results, by handle *)
  promises : gmap nat Settlement;
  (** the timeouts of the run time that are armed *)
  armed : gset nat;
  (** the registry arrays, by reference *)
  registries : gmap nat (list IRegistry);
  nextHandle : nat;
}.

(** Modelled from the spec: [reject] of a deferred created by
    [createPromise()], which is missing; the deferred transitions once. *)
Definition rejectPromise (p : nat) (e : Error) (h : Heap) : Heap :=
  match promises h !! p with
  | Some Pending =>
      {| promises := <[p := Rejected e]> (promises h); armed := armed h;
         registries := registries h; nextHandle := nextHandle h |}
  | _ => h
  end.

(** [clearTimeout(t)] *)
Definition clearTimeout (t : nat) (h : Heap) : Heap :=
  {| promises := promises h; armed := armed h ∖ {[t]};
     registries := registries h; nextHandle := nextHandle h |}.

Definition setRegistry (r : nat) (entries : list IRegistry) (h : Heap) : Heap :=
  {| promises := promises h; armed := armed h;
     registries := <[r := entries]> (registries h); nextHandle := nextHandle h |}.

(** [new Timer(timeoutMillis, registry)]: the field initialisers create the
    deferred, the constructor arms the timeout and registers it. *)
Definition construct (timeoutMillis : Z) (registry : option nat) (h : Heap)
    : Timer * Heap :=
  let p := nextHandle h in
  let t := S p in
  ({| timeoutMillis := timeoutMillis; registry := registry; timerTimeout := t;
      timeoutMessage := "Timeout waiting"; expirePromise := p |},
   {| promises := <[p := Pending]> (promises h);
      armed := {[t]} ∪ armed h;
      registries :=
        match registry with
        | Some r => alter (fun entries => (entries ++ [{| reject := p; timeout := t |}])%list)
                      r (registries h)
        | None => registries h
        end;
      nextHandle := S t |}).

Definition setMessage (message : string) (t : Timer) : Timer :=
  {| timeoutMillis := timeoutMillis t; registry := registry t;
     timerTimeout := timerTimeout t; timeoutMessage := message;
     expirePromise := expirePromise t |}.

(** [registry.findIndex(x => x.timeout === t)] followed by [splice(idx, 1)]
    when an index is found. *)
Fixpoint spliceFirst (t : nat) (entries : list IRegistry) : list IRegistry :=
  match entries with
  | [] => []
  | x :: rest => if Nat.eqb (timeout x) t then rest else x :: spliceFirst t rest
  end.

Definition clear (t : Timer) (h : Heap) : Heap :=
  clearTimeout (timerTimeout t)
    match registry t with
    | Some r =>
        {| promises := promises h; armed := armed h;
           registries := alter (spliceFirst (timerTimeout t)) r (registries h);
           nextHandle := nextHandle h |}
    | None => h
    end.

(** [expire], the callback of the timeout. *)
Definition expire (t : Timer) (h : Heap) : Heap :=
  clear t (rejectPromise (expirePromise t) (TimeoutError (timeoutMessage t)) h).

Definition isResolved (t : Timer) (h : Heap) : bool :=
  match promises h !! expirePromise t with
  | Some Pending | None => false
  | Some _ => true
  end.

(** The loop of [expireAll]: each turn shifts the first entry off the
    array [r], clears its timeout and rejects its deferred. *)
Fixpoint expireEntries (r : nat) (entries : list IRegistry) (error : Error) (h : Heap)
    : Heap :=
  match entries with
  | [] => h
  | next :: rest =>
      expireEntries r rest error
        (rejectPromise (reject next) error
           (clearTimeout (timeout next) (setRegistry r rest h)))
  end.

(** [Timer.expireAll(registry, error)] *)
Definition expireAll (r : nat) (error : Error) (h : Heap) : Heap :=
  match registries h !! r with
  | Some entries => expireEntries r entries error h
  | None => h
  end.

(** No entry of a registry and no armed timeout uses a handle that is yet
    to be given out. *)
Definition handlesBelow (h : Heap) : Prop :=
  (∀ t, t ∈ armed h → (t < nextHandle h)%nat)
  ∧ (∀ r entries x, registries h !! r = Some entries → x ∈ entries →
                    (timeout x < nextHandle h)%nat).

End WaitTimer.


(** ** The session loader (replay-api/lib/SessionLoader.ts)

    Of this class the grouping of the DOM changes is embedded. The ticks and
    the command results are computed with [Date], floating point division
    and [JSON.parse], and are left out. *)

Module SessionLoader.

(** The fields of a DOM change record that the loader reads; the record
    type belongs to the session database. *)
Record IDomChangeRecord := {
  timestamp : string;
  commandId : Z;
  (** what else the record carries *)
  eventIndex : Z;
}.

Record IDomChangeGroup := {
  groupTimestamp : string;
  groupCommandId : Z;
  changes : list IDomChangeRecord;
}.

(** [domChangeGroup?.timestamp !== change.timestamp ||
     domChangeGroup?.commandId !== change.commandId] *)
Definition startsGroup (domChangeGroup : option IDomChangeGroup)
    (change : IDomChangeRecord) : bool :=
  match domChangeGroup with
  | Some g =>
      negb (String.eqb (groupTimestamp g) (timestamp change))
      || negb (groupCommandId g =? commandId change)
  | None => true
  end.

(** One turn of the loop of [assembleDomChangeGroups]. The state is the
    array [this.domChangeGroups] without its last element, and
    [domChangeGroup], which is that last element (or null before the first
    push): [domChangeGroup.changes.push] changes the group inside the array. *)
Definition assembleStep (st : list IDomChangeGroup * option IDomChangeGroup)
    (change : IDomChangeRecord) : list IDomChangeGroup * option IDomChangeGroup :=
  if startsGroup st.2 change
  then ((st.1 ++ option_list st.2)%list,
        Some {| groupTimestamp := timestamp change; groupCommandId := commandId change;
                changes := [change] |})
  else (st.1,
        (fun g => {| groupTimestamp := groupTimestamp g; groupCommandId := groupCommandId g;
                     changes := (changes g ++ [change])%list |}) <$> st.2).

(** [this.domChangeGroups] after [assembleDomChangeGroups]. *)
Definition assembleDomChangeGroups (domChanges : list IDomChangeRecord)
    : list IDomChangeGroup :=
  let st := fold_left assembleStep domChanges ([], None) in
  (st.1 ++ option_list st.2)%list.

(** All changes of a group carry the key of the group, and there is one. *)
Definition wellGrouped (g : IDomChangeGroup) : Prop :=
  changes g ≠ []
  ∧ Forall (fun c => timestamp c = groupTimestamp g ∧ commandId c = groupCommandId g)
           (changes g).

(** Two groups have the same key. *)
Definition sameKey (g g' : IDomChangeGroup) : Prop :=
  groupTimestamp g = groupTimestamp g' ∧ groupCommandId g = groupCommandId g'.

(** The last change of a group. *)
Definition lastChange (g : IDomChangeGroup) : option IDomChangeRecord :=
  last (changes g).

(** The array of groups in a state of the loop. *)
Definition groupsOf (st : list IDomChangeGroup * option IDomChangeGroup)
    : list IDomChangeGroup := (st.1 ++ option_list st.2)%list.

(** Neighbours in the array have different keys. *)
Definition distinctNeighbours (groups : list IDomChangeGroup) : Prop :=
  ∀ i g g', groups !! i = Some g → groups !! S i = Some g' → ¬ sameKey g g'.

(** What the loop keeps: neighbours differ, and [domChangeGroup] is null
    only while the array is empty. *)
Definition loopInvariant (st : list IDomChangeGroup * option IDomChangeGroup) : Prop :=
  distinctNeighbours (groupsOf st) ∧ (st.2 = None → st.1 = []).

End SessionLoader.


(** ** The frame environments of a tab (client Tab)

    The client classes forward their calls to the core over promises; what
    they compute themselves is the list of frame environments of a tab. A
    call is taken to run alone from its first [await] to its last, with
    every frame id promise fulfilled; the calls that [Promise.all] runs side
    by side are not embedded. *)

Module Tab.

(** A [FrameEnvironment] object: its identity, and the frame id that its
    core frame answers. *)
Record FrameEnvironment := {
  object : nat;
  frameId : Z;
}.

Record State := {
  frameEnvironments : list FrameEnvironment;
  nextObject : nat;
}.

(** [#getOrCreateFrameEnvironment(coreFrame)]: the first environment with
    the frame id of [coreFrame], or a new one pushed on the list. *)
Definition getOrCreateFrameEnvironment (coreFrameId : Z) (st : State)
    : FrameEnvironment * State :=
  match List.find (fun fe => frameId fe =? coreFrameId) (frameEnvironments st) with
  | Some fe => (fe, st)
  | None =>
      let fe := {| object := nextObject st; frameId := coreFrameId |} in
      (fe, {| frameEnvironments := (frameEnvironments st ++ [fe])%list;
              nextObject := S (nextObject st) |})
  end.

(** [frames.indexOf(fe)]: objects are compared by identity. *)
Fixpoint indexOf (fe : FrameEnvironment) (frames : list FrameEnvironment) : option nat :=
  match frames with
  | [] => None
  | x :: rest => if Nat.eqb (object x) (object fe) then Some 0%nat
                 else S <$> indexOf fe rest
  end.

(** [frames.splice(idx, 1)], where [indexOf] answers -1 for [None] and
    [splice(-1, 1)] removes the last element. *)
Definition splice (idx : option nat) (frames : list FrameEnvironment)
    : list FrameEnvironment :=
  match idx with
  | Some i => delete i frames
  | None => removelast frames
  end.

(** [newFrameIds.includes(id)] *)
Definition includes (newFrameIds : list Z) (id : Z) : bool :=
  existsb (Z.eqb id) newFrameIds.

(** The first loop of [#getRefreshedFrameEnvironments]: a [for ... of] over
    the array that the body splices. The iterator reads the element at its
    index [i] in the array as it is then, and stops at the end of the
    array; [fuel] bounds the turns. *)
Fixpoint removeGoneLoop (fuel i : nat) (newFrameIds : list Z)
    (frames : list FrameEnvironment) : list FrameEnvironment :=
  match fuel with
  | O => frames
  | S fuel' =>
      match frames !! i with
      | None => frames
      | Some fe =>
          if includes newFrameIds (frameId fe)
          then removeGoneLoop fuel' (S i) newFrameIds frames
          else removeGoneLoop fuel' (S i) newFrameIds (splice (indexOf fe frames) frames)
      end
  end.

Definition removeGone (newFrameIds : list Z) (frames : list FrameEnvironment)
    : list FrameEnvironment :=
  removeGoneLoop (length frames) 0 newFrameIds frames.

(** What the loop leaves: an environment whose frame is gone is dropped,
    and the environment after a dropped one is kept without a look. *)
Fixpoint sweep (newFrameIds : list Z) (frames : list FrameEnvironment)
    : list FrameEnvironment :=
  match frames with
  | [] => []
  | x :: rest =>
      if includes newFrameIds (frameId x) then x :: sweep newFrameIds rest
      else match rest with
           | [] => []
           | y :: rest' => y :: sweep newFrameIds rest'
           end
  end.

End Tab.


(** ** Concrete inputs for the further properties *)

Definition reloadEntry : INavigation := entry 1 "https://a/" "reload" [].

(** A wait for [PaintingStable], registered while the page had its DOM. *)
Definition paintingWaitState : State :=
  stateOf (waitForLoad examplePipeline exampleIsLoadStatus LoadStatus.PaintingStable
             noOptions (timelineAt domLoadedEntry false None) initialState).

(** A wait for [DomContentLoaded], registered while the page had answered. *)
Definition domWaitState : State :=
  stateOf (waitForLoad examplePipeline exampleIsLoadStatus LoadStatus.DomContentLoaded
             noOptions (timelineAt respondedEntry false None) initialState).

(** A new observer over a store with the [resourceId] deferred. *)
Definition resourceState : State := {| this := newObserver; world := resourceWorld |}.

Definition fiveSinceCommandId : IWaitForOptions :=
  {| timeoutMs := None; sinceCommandId := Some (JsInt 5) |}.

(** A heap with one registry, empty. *)
Definition emptyRegistryHeap : WaitTimer.Heap :=
  {| WaitTimer.promises := ∅; WaitTimer.armed := ∅;
     WaitTimer.registries := {[ 0%nat := [] ]}; WaitTimer.nextHandle := 0%nat |}.

(** The first of two timers made on that registry, and the heap after the
    second. *)
Definition firstTimer : WaitTimer.Timer :=
  (WaitTimer.construct 100 (Some 0%nat) emptyRegistryHeap).1.

Definition twoTimersHeap : WaitTimer.Heap :=
  (WaitTimer.construct 200 (Some 0%nat)
     (WaitTimer.construct 100 (Some 0%nat) emptyRegistryHeap).2).2.

Definition twoTimersEntries : list WaitTimer.IRegistry :=
  [ {| WaitTimer.reject := 0%nat; WaitTimer.timeout := 1%nat |};
    {| WaitTimer.reject := 2%nat; WaitTimer.timeout := 3%nat |} ].

Definition domChange (t : string) (c i : Z) : SessionLoader.IDomChangeRecord :=
  {| SessionLoader.timestamp := t; SessionLoader.commandId := c;
     SessionLoader.eventIndex := i |}.

Definition threeChanges : list SessionLoader.IDomChangeRecord :=
  [domChange "t1" 1 0; domChange "t1" 1 1; domChange "t2" 1 2].

(** The first two groups of [threeChanges]. *)
Definition firstGroup : SessionLoader.IDomChangeGroup :=
  {| SessionLoader.groupTimestamp := "t1"; SessionLoader.groupCommandId := 1;
     SessionLoader.changes := [domChange "t1" 1 0; domChange "t1" 1 1] |}.

Definition secondGroup : SessionLoader.IDomChangeGroup :=
  {| SessionLoader.groupTimestamp := "t2"; SessionLoader.groupCommandId := 1;
     SessionLoader.changes := [domChange "t2" 1 2] |}.

Definition frame (o : nat) (i : Z) : Tab.FrameEnvironment :=
  {| Tab.object := o; Tab.frameId := i |}.

Definition fourFrames : list Tab.FrameEnvironment :=
  [frame 0 10; frame 1 11; frame 2 12; frame 3 13].

(** * Properties *)

(** *** Strings *)

Lemma string_eqb_true (a b : string) : String.eqb a b = true ↔ a = b.
Proof. apply String.eqb_eq. Qed.

Lemma string_eqb_false (a b : string) : String.eqb a b = false ↔ a ≠ b.
Proof. apply String.eqb_neq. Qed.

Lemma append_nil (t : string) : "" +:+ t = t.
Proof. reflexivity. Qed.

Lemma append_cons (a : Ascii.ascii) (s t : string) :
  String a s +:+ t = String a (s +:+ t).
Proof. reflexivity. Qed.

Lemma prefix_iff (p s : string) : String.prefix p s = true ↔ ∃ t, s = p +:+ t.
Proof.
  revert s. induction p as [|a p IH]; intros [|b s]; simpl.
  - split; [intros _; by exists "" | done].
  - split; [intros _; by exists (String b s) | done].
  - split; [done | intros [t Ht]; rewrite append_cons in Ht; discriminate].
  - destruct (Ascii.ascii_dec a b) as [->|Hne].
    + rewrite IH. split; intros [t Ht]; exists t; rewrite append_cons in *; congruence.
    + split; [done | intros [t Ht]; rewrite append_cons in Ht; congruence].
Qed.

Lemma dropString_app (p t : string) : dropString (String.length p) (p +:+ t) = t.
Proof. induction p; [done|]. rewrite append_cons. simpl. auto. Qed.

Lemma length_append (a b : string) :
  String.length (a +:+ b) = (String.length a + String.length b)%nat.
Proof. induction a; [done|]. rewrite append_cons. simpl. auto. Qed.

Lemma append_empty_r (a : string) : a +:+ "" = a.
Proof. induction a; [done|]. rewrite append_cons. congruence. Qed.

Lemma length_zero (a : string) : String.length a = 0%nat → a = "".
Proof. by destruct a. Qed.

Lemma replaceWithEmpty_unfold (p s : string) :
  replaceWithEmpty p s
  = if String.prefix p s then dropString (String.length p) s
    else match s with
         | EmptyString => EmptyString
         | String c s' => String c (replaceWithEmpty p s')
         end.
Proof. by destruct s. Qed.

(** [replaceWithEmpty] cuts one occurrence of the pattern out, or finds none
    and returns the string. *)
Lemma replaceWithEmpty_cases (p s : string) :
  (∃ a b, s = a +:+ p +:+ b ∧ replaceWithEmpty p s = a +:+ b)
  ∨ replaceWithEmpty p s = s.
Proof.
  induction s as [|c s IH]; rewrite replaceWithEmpty_unfold.
  - destruct (String.prefix p "") eqn:Hp; [|by right].
    apply prefix_iff in Hp as [t Ht]. left. exists "", t. split; [done|].
    rewrite Ht at 1. by rewrite dropString_app.
  - destruct (String.prefix p (String c s)) eqn:Hp.
    + apply prefix_iff in Hp as [t Ht]. left. exists "", t. split; [done|].
      rewrite Ht. by rewrite dropString_app.
    + destruct IH as [(a & b & Hs & Hr)|Hr].
      * left. exists (String c a), b. simpl. by rewrite Hr, Hs.
      * right. by rewrite Hr.
Qed.

Lemma replaceWithEmpty_prefix (p t : string) : replaceWithEmpty p (p +:+ t) = t.
Proof.
  rewrite replaceWithEmpty_unfold.
  replace (String.prefix p (p +:+ t)) with true
    by (symmetry; apply prefix_iff; by exists t).
  apply dropString_app.
Qed.

Lemma replaceWithEmpty_length (p s : string) :
  (String.length (replaceWithEmpty p s) ≤ String.length s)%nat.
Proof.
  destruct (replaceWithEmpty_cases p s) as [(a & b & Hs & ->)| ->]; [|done].
  rewrite Hs, !length_append. lia.
Qed.

Lemma replaceWithEmpty_cons (p : string) (c : Ascii.ascii) :
  String.length (replaceWithEmpty p (String c p)) = 1%nat.
Proof.
  rewrite replaceWithEmpty_unfold.
  destruct (String.prefix p (String c p)) eqn:Hp.
  - apply prefix_iff in Hp as [t Ht].
    assert (String.length t = 1%nat) as Hl.
    { apply (f_equal String.length) in Ht. rewrite length_append in Ht. simpl in Ht. lia. }
    rewrite Ht, dropString_app. done.
  - rewrite <- (append_empty_r p) at 2. by rewrite replaceWithEmpty_prefix.
Qed.

(** When what is left after the removal has at most one character. *)
Lemma replaceWithEmpty_short (p s : string) :
  p ≠ s →
  (String.length (replaceWithEmpty p s) ≤ 1)%nat
  ↔ (∃ c, s = p +:+ String c "" ∨ s = String c p) ∨ (String.length s ≤ 1)%nat.
Proof.
  intros Hne. split.
  - intros Hlen.
    destruct (replaceWithEmpty_cases p s) as [(a & b & Hs & Hr)|Hr].
    + rewrite Hr, length_append in Hlen.
      destruct a as [|x a], b as [|y b];
        rewrite ?append_nil, ?append_cons, ?append_empty_r in Hs; simpl in Hlen.
      * congruence.
      * left. exists y. left.
        assert (b = "") as -> by (apply length_zero; lia). done.
      * left. exists x. right.
        assert (a = "") as -> by (apply length_zero; lia). done.
      * lia.
    + right. by rewrite Hr in Hlen.
  - intros [[c [-> | ->]] | Hlen].
    + by rewrite replaceWithEmpty_prefix.
    + by rewrite replaceWithEmpty_cons.
    + etrans; [apply replaceWithEmpty_length | done].
Qed.

Lemma isInPageUrlAdjust_iff (prev : string) (h : INavigation) :
  prev ≠ finalUrl h →
  isInPageUrlAdjust prev h = true ↔ cosmeticInPageAdjust prev h.
Proof.
  intros Hne. unfold isInPageUrlAdjust, cosmeticInPageAdjust.
  rewrite andb_true_iff, string_eqb_true, Z.leb_le.
  rewrite <- (replaceWithEmpty_short prev (finalUrl h) Hne). 
  split; intros [? ?]; split; try done; lia.
Qed.

Lemma isLocationChange_change (previous : option string) (h : INavigation) :
  isLocationChange LocationTrigger.change previous h = true
  ↔ ∃ prev, previous = Some prev ∧ prev ≠ "" ∧ prev ≠ finalUrl h
            ∧ ¬ cosmeticInPageAdjust prev h.
Proof.
  unfold isLocationChange.
  change (String.eqb LocationTrigger.change LocationTrigger.reload) with false.
  change (String.eqb LocationTrigger.change LocationTrigger.change) with true.
  destruct previous as [prev|]; [|split; [done | by intros (? & ? & _)]].
  cbn [andb truthyString].
  destruct (String.eqb prev "") eqn:He; cbn [negb andb].
  { apply string_eqb_true in He. split; [done | intros (? & [= <-] & ? & _); done]. }
  apply string_eqb_false in He.
  destruct (String.eqb prev (finalUrl h)) eqn:Hu; cbn [negb].
  { apply string_eqb_true in Hu. split; [done | intros (? & [= <-] & ? & ? & _); done]. }
  apply string_eqb_false in Hu.
  pose proof (isInPageUrlAdjust_iff prev h Hu) as Hadj.
  destruct (isInPageUrlAdjust prev h).
  - split; [done | intros (? & [= <-] & _ & _ & Hn)]. destruct Hn. by apply Hadj.
  - split; [intros _ | done]. exists prev. repeat split; try done.
    intros Hc. apply Hadj in Hc. done.
Qed.

(** *** The scan over the history *)

Lemma previousAfter_cons previous h entries :
  previousAfter previous (h :: entries)
  = previousAfter (if isSettled h then Some (finalUrl h) else previous) entries.
Proof.
  unfold previousAfter, settledUrl. cbn [List.filter].
  destruct (isSettled h); [|done].
  rewrite last_cons. by destruct (last (List.filter isSettled entries)).
Qed.

Lemma hasLocationTrigger_loop_iff trigger since entries :
  ∀ previous,
    hasLocationTrigger_loop previous trigger since entries = true
    ↔ ∃ pre h post, entries = (pre ++ h :: post)%list ∧ since ≤ startCommandId h
        ∧ isLocationChange trigger (previousAfter previous pre) h = true.
Proof.
  induction entries as [|x rest IH]; intros previous; cbn [hasLocationTrigger_loop].
  - split; [done | intros (pre & h & post & Hs & _)]. by destruct pre.
  - destruct ((since <=? startCommandId x) && isLocationChange trigger previous x)%bool
      eqn:Hx.
    + apply andb_true_iff in Hx as [Hle Hc]. apply Z.leb_le in Hle.
      split; [intros _ | done]. by exists [], x, rest.
    + rewrite IH. split.
      * intros (pre & h & post & -> & Hle & Hc). exists (x :: pre), h, post.
        by rewrite previousAfter_cons.
      * intros (pre & h & post & Hs & Hle & Hc). destruct pre as [|y pre].
        -- injection Hs as <- <-. apply Z.leb_le in Hle.
           unfold previousAfter, settledUrl in Hc. cbn in Hc.
           rewrite Hle, Hc in Hx. done.
        -- injection Hs as <- ->. exists pre, h, post.
           by rewrite <- previousAfter_cons.
Qed.

(** C2, as amended: a [change] trigger is satisfied exactly when some entry
    of the history that started at or after [sinceCommandId] has a final
    URL different from the non-empty URL settled before it, unless that
    entry is an in-page navigation whose URL is the settled one with a
    single character gained at its end or at its start, or has at most one
    character. An in-page entry that lost its trailing character is
    therefore a change, and so is every entry with another reason. *)
Theorem change_trigger_satisfaction navigations since :
  hasLocationTrigger navigations LocationTrigger.change since = true
  ↔ ∃ pre h post prev,
      history navigations = (pre ++ h :: post)%list
      ∧ since ≤ startCommandId h
      ∧ settledUrl pre = Some prev
      ∧ prev ≠ "" ∧ prev ≠ finalUrl h
      ∧ ¬ cosmeticInPageAdjust prev h.
Proof.
  unfold hasLocationTrigger. rewrite hasLocationTrigger_loop_iff. split.
  - intros (pre & h & post & Hs & Hle & Hc).
    apply isLocationChange_change in Hc as (prev & Hp & ?).
    exists pre, h, post, prev. repeat split; try tauto.
    unfold previousAfter in Hp. by destruct (settledUrl pre).
  - intros (pre & h & post & prev & Hs & Hle & Hp & Hrest).
    exists pre, h, post. repeat split; try done.
    apply isLocationChange_change. exists prev. unfold previousAfter. by rewrite Hp.
Qed.

(** C2, as stated, fails: after "https://a/" has settled, an in-page
    navigation to "https://a", which only lost the trailing slash,
    satisfies the [change] trigger. *)
Lemma change_trigger_lost_trailing_character :
  finalUrl lostSlashEntry +:+ "/" = finalUrl settledEntry
  ∧ navigationReason lostSlashEntry = "inPage"
  ∧ settledUrl [settledEntry] = Some (finalUrl settledEntry)
  ∧ hasLocationTrigger (timelineOf [settledEntry; lostSlashEntry])
      LocationTrigger.change 1 = true.
Proof. repeat split; reflexivity. Qed.

(** The other half of C2 fails as well: an in-page navigation that gained
    a character in front of the settled URL differs by more than a trailing
    character, and does not satisfy the trigger; gaining the trailing slash
    does not either. *)
Lemma change_trigger_gained_character :
  hasLocationTrigger (timelineOf [settledNoSlashEntry; leadingCharacterEntry])
    LocationTrigger.change 1 = false
  ∧ hasLocationTrigger (timelineOf [settledNoSlashEntry; gainedSlashEntry])
      LocationTrigger.change 1 = false.
Proof. split; reflexivity. Qed.

(** ** willRunCommand *)

Lemma willRunCommand_scan (commands : list ICommandMeta.t) :
  ∀ cursor before,
    fold_left willRunCommand_step commands (cursor, before)
    = (default cursor (lastAnchor before commands),
       default before (Some <$> last commands)).
Proof.
  induction commands as [|c rest IH]; intros cursor before; [done|].
  cbn [fold_left lastAnchor]. unfold willRunCommand_step at 2. cbn [fst snd].
  rewrite IH. f_equal.
  - destruct (lastAnchor (Some c) rest) as [a|]; [done|]. cbn [default].
    unfold movesCursor.
    destruct (String.eqb (ICommandMeta.name c) "goto");
      destruct (nameStartsWithWaitFor before && negb (startsWith (ICommandMeta.name c) "waitFor"))%bool; done.
  - destruct rest as [|c' rest']; [done|].
    change (last (c :: c' :: rest')) with (last (c' :: rest')).
    by destruct (proj2 (last_is_Some (c' :: rest')) ltac:(done)) as [x ->].
Qed.

(** C4, as amended: the cursor after [willRunCommand] is a function of the
    command sequence and of the cursor the observer had before, and of
    nothing else in the observer. It is the new command's id when rule 3
    applies, else the id of the last prior command selected by rule 1 or 2,
    and the prior cursor when no rule fires. *)
Theorem willRunCommand_cursor newCommand previousCommands o :
  defaultWaitForLocationCommandId (willRunCommand newCommand previousCommands o)
  = default (defaultWaitForLocationCommandId o) (anchorOf newCommand previousCommands).
Proof.
  unfold willRunCommand, anchorOf, reanchorsToNewCommand. cbn [defaultWaitForLocationCommandId].
  rewrite willRunCommand_scan. cbn [fst snd].
  destruct (last previousCommands) as [l|]; simpl.
  - by destruct (String.eqb _ _ && _)%bool.
  - by rewrite andb_false_r.
Qed.

(** C4, as stated, fails: with the same prior commands and the same new
    command, a fresh observer ends with cursor 0 and an observer that has
    seen the second of the two waits run ends with cursor 2. *)
Lemma willRunCommand_prior_state :
  let previousCommands := [cmd 1 "waitForLoad"; cmd 2 "waitForLocation"] in
  let earlier := willRunCommand (cmd 2 "waitForLocation") [cmd 1 "waitForLoad"] newObserver in
  defaultWaitForLocationCommandId
    (willRunCommand (cmd 3 "click") previousCommands newObserver) = 0
  ∧ defaultWaitForLocationCommandId
      (willRunCommand (cmd 3 "click") previousCommands earlier) = 2
  ∧ defaultWaitForLocationCommandId
      (willRunCommand (cmd 3 "click") previousCommands newObserver)
    ≠ defaultWaitForLocationCommandId
        (willRunCommand (cmd 3 "click") previousCommands earlier).
Proof. repeat split; try reflexivity. discriminate. Qed.

(** ** Deferred results and cancellation *)

(** *** The store *)

Lemma isPending_settlementOf w p :
  isPending w p = true ↔ settlementOf w p = Some Pending.
Proof.
  unfold isPending, settlementOf.
  destruct (deferreds w !! p) as [[[] ?]|]; simpl; split; congruence.
Qed.

Lemma isPending_isResolved w p :
  is_Some (deferreds w !! p) → isResolved w p = negb (isPending w p).
Proof.
  unfold isPending, isResolved. intros [[[] ?] ->]; done.
Qed.

Lemma isPending_not_resolved w p : isPending w p = true → isResolved w p = false.
Proof.
  unfold isPending, isResolved. destruct (deferreds w !! p) as [[[] ?]|]; done.
Qed.

Lemma clearTimeout_deferreds h w : deferreds (clearTimeout h w) = deferreds w.
Proof. by destruct h. Qed.

Lemma clearTimeout_calls h w : calls (clearTimeout h w) = calls w.
Proof. by destruct h. Qed.

Lemma clearTimeout_nextHandle h w : nextHandle (clearTimeout h w) = nextHandle w.
Proof. by destruct h. Qed.

Lemma clearTimeout_timers_None h k w :
  timers w !! k = None → timers (clearTimeout h w) !! k = None.
Proof.
  destruct h as [h|]; [|done]. simpl. intros Hk.
  rewrite lookup_delete. by case_decide.
Qed.

Lemma clearTimeout_cleared h w : timers (clearTimeout (Some h) w) !! h = None.
Proof. simpl. apply lookup_delete_eq. Qed.

Lemma clearTimeout_absent h w :
  (∀ k, h = Some k → timers w !! k = None) → clearTimeout h w = w.
Proof.
  destruct h as [k|]; [|done]. intros Hk. destruct w as [d t n c]. simpl in *.
  f_equal. apply delete_id. by apply Hk.
Qed.

Lemma isPending_clearTimeout h w p : isPending (clearTimeout h w) p = isPending w p.
Proof. unfold isPending. by rewrite clearTimeout_deferreds. Qed.

Lemma settlementOf_clearTimeout h w p :
  settlementOf (clearTimeout h w) p = settlementOf w p.
Proof. unfold settlementOf. by rewrite clearTimeout_deferreds. Qed.

(** Settling a pending deferred. *)
Lemma settle_pending p o w :
  isPending w p = true →
  settlementOf (settle p o w) p = Some o
  ∧ (∀ q, q ≠ p → deferreds (settle p o w) !! q = deferreds w !! q)
  ∧ calls (settle p o w) = calls w
  ∧ nextHandle (settle p o w) = nextHandle w
  ∧ (∀ k, timers w !! k = None → timers (settle p o w) !! k = None).
Proof.
  unfold isPending, settle, settlementOf.
  destruct (deferreds w !! p) as [[[] t]|] eqn:Hp; try done. intros _.
  rewrite clearTimeout_deferreds, clearTimeout_calls, clearTimeout_nextHandle. simpl.
  rewrite lookup_insert_eq. repeat split; try done.
  - intros q Hq. by rewrite lookup_insert_ne.
  - intros k Hk. by apply clearTimeout_timers_None.
Qed.

(** A settled deferred is left alone. *)
Lemma settle_settled p o w : isPending w p = false → settle p o w = w.
Proof.
  unfold isPending, settle. by destruct (deferreds w !! p) as [[[] t]|].
Qed.

Lemma isPending_logCall c w p : isPending (logCall c w) p = isPending w p.
Proof. done. Qed.

Lemma reject_pending p e w :
  isPending w p = true →
  settlementOf (reject p e w) p = Some (Rejected e)
  ∧ (∀ q, q ≠ p → deferreds (reject p e w) !! q = deferreds w !! q)
  ∧ calls (reject p e w) = (calls w ++ [Reject p e])%list
  ∧ nextHandle (reject p e w) = nextHandle w
  ∧ (∀ k, timers w !! k = None → timers (reject p e w) !! k = None).
Proof.
  intros Hp. unfold reject.
  destruct (settle_pending p (Rejected e) (logCall (Reject p e) w)) as (?&?&?&?&?); done.
Qed.

Lemma isPending_frame w w' p :
  deferreds w' !! p = deferreds w !! p → isPending w' p = isPending w p.
Proof. unfold isPending. by intros ->. Qed.

Lemma settlementOf_frame w w' p :
  deferreds w' !! p = deferreds w !! p → settlementOf w' p = settlementOf w p.
Proof. unfold settlementOf. by intros ->. Qed.

Lemma settled_not_pending w p o :
  settlementOf w p = Some o → o ≠ Pending → isPending w p = false.
Proof.
  intros Ho Hne. destruct (isPending w p) eqn:Hp; [|done].
  apply isPending_settlementOf in Hp. congruence.
Qed.

(** *** One iteration of cancelWaiting *)

Lemma cancelOne_pending msg w p :
  isPending w p = true →
  cancelOne msg w (Some p) = reject p (CanceledPromiseError msg) w.
Proof. intros Hp. unfold cancelOne. by rewrite isPending_not_resolved. Qed.

Lemma cancelOne_settled msg w p :
  is_Some (deferreds w !! p) → isPending w p = false → cancelOne msg w (Some p) = w.
Proof.
  intros Ha Hp. unfold cancelOne. by rewrite isPending_isResolved, Hp.
Qed.

Lemma cancelOne_noop msg w o :
  (∀ p, o = Some p → is_Some (deferreds w !! p) ∧ isPending w p = false) →
  cancelOne msg w o = w.
Proof.
  destruct o as [p|]; [|done]. intros H. destruct (H p eq_refl).
  by apply cancelOne_settled.
Qed.

(** What one iteration of the loop of [cancelWaiting] does to the store. *)
Lemma cancelOne_spec msg w o :
  (∀ p, o = Some p → is_Some (deferreds w !! p)) →
  calls (cancelOne msg w o)
  = (calls w ++ match o with
                | Some p => if isPending w p then [Reject p (CanceledPromiseError msg)] else []
                | None => []
                end)%list
  ∧ (∀ q, deferreds (cancelOne msg w o) !! q = deferreds w !! q
          ∨ (o = Some q ∧ isPending w q = true
             ∧ settlementOf (cancelOne msg w o) q = Some (Rejected (CanceledPromiseError msg))))
  ∧ (∀ k, timers w !! k = None → timers (cancelOne msg w o) !! k = None)
  ∧ nextHandle (cancelOne msg w o) = nextHandle w
  ∧ ((∀ p, o = Some p → isPending w p = false) → cancelOne msg w o = w).
Proof.
  intros Ha. destruct o as [p|].
  2: { cbn [cancelOne]. rewrite app_nil_r. repeat split; auto. }
  destruct (isPending w p) eqn:Hp.
  - rewrite cancelOne_pending by done.
    destruct (reject_pending p (CanceledPromiseError msg) w Hp) as (Hs & Ho & Hc & Hn & Ht).
    repeat split; try done.
    + intros q. destruct (decide (q = p)) as [->|Hq]; [by right | left; by apply Ho].
    + intros Hall. specialize (Hall p eq_refl). congruence.
  - rewrite cancelOne_settled by auto. rewrite app_nil_r. repeat split; auto.
Qed.

Lemma cancelOne_isPending msg w o q :
  (∀ p, o = Some p → is_Some (deferreds w !! p)) →
  isPending (cancelOne msg w o) q
  = isPending w q && negb (bool_decide (o = Some q)).
Proof.
  intros Ha. destruct (cancelOne_spec msg w o Ha) as (_ & Hd & _).
  destruct (Hd q) as [Heq | (-> & Hp & Hs)].
  - rewrite (isPending_frame _ _ _ Heq).
    case_bool_decide as Ho; [|by rewrite andb_true_r]. subst o.
    destruct (isPending w q) eqn:Hp; [|done].
    rewrite cancelOne_pending in Heq by done.
    destruct (reject_pending q (CanceledPromiseError msg) w Hp) as (Hs & _).
    apply isPending_settlementOf in Hp. unfold settlementOf in *.
    rewrite Heq, Hp in Hs. done.
  - rewrite bool_decide_true by done. rewrite andb_false_r.
    by eapply settled_not_pending.
Qed.

Lemma cancelOne_allocated msg w o q :
  is_Some (deferreds w !! q) → is_Some (deferreds (cancelOne msg w o) !! q).
Proof.
  intros Hq. destruct o as [p|]; [|done]. unfold cancelOne.
  destruct (isResolved w p); [done|]. unfold reject, settle. simpl.
  destruct (deferreds w !! p) as [[[] t]|] eqn:Hp; try done.
  rewrite clearTimeout_deferreds. simpl. rewrite lookup_insert. by case_decide.
Qed.

(** *** cancelWaiting *)

Lemma elem_of_pendingTracked s p :
  p ∈ pendingTracked s
  ↔ isPending (world s) p = true
    ∧ (resourceIdResolvable (this s) = Some p ∨ statusTriggerResolvable (this s) = Some p).
Proof.
  unfold pendingTracked, tracked. rewrite elem_of_remove_dups, list_elem_of_In, filter_In.
  rewrite <- list_elem_of_In, list_elem_of_omap. split.
  - intros [(o & Ho & Hid) Hp]. split; [done|]. simpl in Hid. subst o.
    apply elem_of_cons in Ho as [Ho|Ho]; [by left|].
    apply list_elem_of_singleton in Ho. by right.
  - intros [Hp Ht]. split; [|done]. exists (Some p). split; [|done].
    apply elem_of_cons. destruct Ht as [Ht|Ht]; [by left|].
    right. by apply list_elem_of_singleton.
Qed.

Lemma cancelWaiting_world msg s :
  world (cancelWaiting msg s)
  = cancelOne msg (resourceCanceled msg s) (statusTriggerResolvable (this s)).
Proof. done. Qed.

Lemma cancelWaiting_this msg s : this (cancelWaiting msg s) = this s.
Proof. done. Qed.

Lemma allocated_resource s p :
  allocated s → resourceIdResolvable (this s) = Some p →
  is_Some (deferreds (world s) !! p).
Proof.
  intros Ha Hp. apply (proj1 (Forall_forall _ _) Ha p). unfold tracked.
  apply list_elem_of_omap. exists (Some p). split; [|done]. apply elem_of_cons. by left.
Qed.

Lemma allocated_trigger s p :
  allocated s → statusTriggerResolvable (this s) = Some p →
  is_Some (deferreds (world s) !! p).
Proof.
  intros Ha Hp. apply (proj1 (Forall_forall _ _) Ha p). unfold tracked.
  apply list_elem_of_omap. exists (Some p). split; [|done]. apply elem_of_cons. right.
  by apply list_elem_of_singleton.
Qed.

(** With its timer gone and nothing pending, [cancelWaiting] does nothing. *)
Lemma cancelWaiting_settled msg s :
  (∀ k, waitingForLoadTimeout (this s) = Some k → timers (world s) !! k = None) →
  (∀ p, resourceIdResolvable (this s) = Some p →
        is_Some (deferreds (world s) !! p) ∧ isPending (world s) p = false) →
  (∀ p, statusTriggerResolvable (this s) = Some p →
        is_Some (deferreds (world s) !! p) ∧ isPending (world s) p = false) →
  cancelWaiting msg s = s.
Proof.
  intros Hk Hr Ht. destruct s as [o w]. unfold cancelWaiting, onWorld.
  cbn [this world fold_left] in *. f_equal.
  rewrite clearTimeout_absent by done.
  rewrite (cancelOne_noop msg w (resourceIdResolvable o)) by done.
  by apply cancelOne_noop.
Qed.

Section CancelWaiting.
Variable msg : string.
Variable s : State.
Hypothesis Halloc : allocated s.

Lemma resource_allocated p :
  resourceIdResolvable (this s) = Some p → is_Some (deferreds (timeoutCleared s) !! p).
Proof.
  intros Hp. unfold timeoutCleared. rewrite clearTimeout_deferreds.
  by apply allocated_resource.
Qed.

Lemma trigger_allocated p :
  statusTriggerResolvable (this s) = Some p →
  is_Some (deferreds (resourceCanceled msg s) !! p).
Proof.
  intros Hp. apply cancelOne_allocated. unfold timeoutCleared.
  rewrite clearTimeout_deferreds. by apply allocated_trigger.
Qed.

Lemma resourceCanceled_isPending q :
  isPending (resourceCanceled msg s) q
  = isPending (world s) q && negb (bool_decide (resourceIdResolvable (this s) = Some q)).
Proof.
  unfold resourceCanceled. rewrite cancelOne_isPending by apply resource_allocated.
  unfold timeoutCleared. by rewrite isPending_clearTimeout.
Qed.

Lemma cancelWaiting_isPending q :
  isPending (world (cancelWaiting msg s)) q
  = isPending (resourceCanceled msg s) q
    && negb (bool_decide (statusTriggerResolvable (this s) = Some q)).
Proof.
  rewrite cancelWaiting_world. by rewrite cancelOne_isPending by apply trigger_allocated.
Qed.

Lemma cancelWaiting_calls :
  calls (world (cancelWaiting msg s))
  = (calls (world s)
     ++ ((fun p => Reject p (CanceledPromiseError msg)) <$> pendingTracked s))%list.
Proof.
  rewrite cancelWaiting_world.
  destruct (cancelOne_spec msg (resourceCanceled msg s) _ trigger_allocated) as (-> & _).
  unfold resourceCanceled at 1.
  destruct (cancelOne_spec msg (timeoutCleared s) _ resource_allocated) as (-> & _).
  unfold timeoutCleared at 1. rewrite clearTimeout_calls, <- app_assoc. f_equal.
  unfold pendingTracked, tracked. pose proof resourceCanceled_isPending as Hp1.
  destruct (resourceIdResolvable (this s)) as [r|] eqn:Hr,
           (statusTriggerResolvable (this s)) as [t|] eqn:Ht; cbn [omap list_omap id].
  all: rewrite ?Hp1.
  all: unfold timeoutCleared; rewrite ?isPending_clearTimeout; cbn [List.filter].
  all: repeat match goal with
         | |- context [isPending (world s) ?p] => destruct (isPending (world s) p) eqn:?
         end; cbn [List.filter andb negb]; try done.
  all: try (case_bool_decide; simplify_eq; cbn [negb]).
  all: cbn [remove_dups]; repeat case_decide; try done.
  all: repeat match goal with
         | H : _ ∈ [_] |- _ => apply list_elem_of_singleton in H
         | H : _ ∉ [_] |- _ => rewrite list_elem_of_singleton in H
         | H : _ ∈ [] |- _ => by apply not_elem_of_nil in H
         end; congruence.
Qed.

Lemma cancelWaiting_rejected p :
  p ∈ pendingTracked s →
  settlementOf (world (cancelWaiting msg s)) p = Some (Rejected (CanceledPromiseError msg)).
Proof.
  rewrite elem_of_pendingTracked. intros [Hp Ht].
  pose proof (cancelWaiting_isPending p) as E2.
  pose proof (resourceCanceled_isPending p) as E1.
  rewrite cancelWaiting_world in *.
  destruct (cancelOne_spec msg (resourceCanceled msg s) _ trigger_allocated) as (_ & H2 & _).
  destruct (cancelOne_spec msg (timeoutCleared s) _ resource_allocated) as (_ & H1 & _).
  fold (resourceCanceled msg s) in H1.
  destruct (H2 p) as [Hf2 | (_ & _ & ?)]; [|done].
  rewrite (settlementOf_frame _ _ _ Hf2).
  destruct (H1 p) as [Hf1 | (_ & _ & ?)]; [|done].
  rewrite (isPending_frame _ _ _ Hf2) in E2.
  rewrite (isPending_frame _ _ _ Hf1) in E1, E2.
  unfold timeoutCleared in E1, E2. rewrite isPending_clearTimeout, Hp in E1, E2.
  destruct Ht as [Ht|Ht];
    [rewrite bool_decide_true in E1 by done | rewrite bool_decide_true in E2 by done];
    done.
Qed.

Lemma cancelWaiting_untouched p :
  p ∉ pendingTracked s →
  settlementOf (world (cancelWaiting msg s)) p = settlementOf (world s) p.
Proof.
  rewrite elem_of_pendingTracked, cancelWaiting_world. intros Hn.
  destruct (cancelOne_spec msg (resourceCanceled msg s) _ trigger_allocated) as (_ & H2 & _).
  destruct (cancelOne_spec msg (timeoutCleared s) _ resource_allocated) as (_ & H1 & _).
  fold (resourceCanceled msg s) in H1.
  destruct (H1 p) as [Hf1 | (Hr & Hp & _)].
  2: { destruct Hn. unfold timeoutCleared in Hp.
       rewrite isPending_clearTimeout in Hp. auto. }
  destruct (H2 p) as [Hf2 | (Hr & Hp & _)].
  2: { destruct Hn. rewrite resourceCanceled_isPending in Hp.
       apply andb_true_iff in Hp as [? _]. auto. }
  rewrite (settlementOf_frame _ _ _ Hf2), (settlementOf_frame _ _ _ Hf1).
  apply settlementOf_clearTimeout.
Qed.

Lemma cancelWaiting_again msg' :
  cancelWaiting msg' (cancelWaiting msg s) = cancelWaiting msg s.
Proof.
  destruct (cancelOne_spec msg (resourceCanceled msg s) _ trigger_allocated) as (_ & _ & Ht2 & _).
  destruct (cancelOne_spec msg (timeoutCleared s) _ resource_allocated) as (_ & _ & Ht1 & _).
  fold (resourceCanceled msg s) in Ht1.
  rewrite <- cancelWaiting_world in Ht2.
  assert (∀ q, is_Some (deferreds (resourceCanceled msg s) !! q) →
               is_Some (deferreds (world (cancelWaiting msg s)) !! q)) as Ha2
    by (intros; rewrite cancelWaiting_world; by apply cancelOne_allocated).
  apply cancelWaiting_settled; rewrite cancelWaiting_this.
  - intros k Hk. apply Ht2, Ht1. unfold timeoutCleared. rewrite Hk.
    apply clearTimeout_cleared.
  - intros p Hp. split.
    + apply Ha2. apply cancelOne_allocated. by apply resource_allocated.
    + rewrite cancelWaiting_isPending, resourceCanceled_isPending, Hp.
      rewrite (bool_decide_true (Some p = Some p)) by done.
      by rewrite andb_false_r.
  - intros p Hp. split; [by apply Ha2, trigger_allocated|].
    rewrite cancelWaiting_isPending, Hp.
    rewrite (bool_decide_true (Some p = Some p)) by done.
    by rewrite andb_false_r.
Qed.

End CancelWaiting.

(** C8: [cancelWaiting] makes one [reject] call, with the cancellation
    error carrying the reason, for each distinct tracked deferred that is
    still pending, which leaves it rejected; it makes none for a settled
    deferred, whose state stays, and calling it again changes nothing. *)
Theorem cancelWaiting_exactly_once msg s :
  allocated s →
  calls (world (cancelWaiting msg s))
  = (calls (world s)
     ++ ((fun p => Reject p (CanceledPromiseError msg)) <$> pendingTracked s))%list
  ∧ NoDup (pendingTracked s)
  ∧ (∀ p, p ∈ pendingTracked s →
       settlementOf (world (cancelWaiting msg s)) p
       = Some (Rejected (CanceledPromiseError msg)))
  ∧ (∀ p, p ∉ pendingTracked s →
       settlementOf (world (cancelWaiting msg s)) p = settlementOf (world s) p)
  ∧ (∀ msg', cancelWaiting msg' (cancelWaiting msg s) = cancelWaiting msg s).
Proof.
  intros Ha. split; [by apply cancelWaiting_calls|].
  split; [apply NoDup_remove_dups|].
  split; [by apply cancelWaiting_rejected|].
  split; [by apply cancelWaiting_untouched | by apply cancelWaiting_again].
Qed.

(** *** createStatusTriggeredPromise *)

Lemma cancelWaiting_nextHandle msg s :
  allocated s → nextHandle (world (cancelWaiting msg s)) = nextHandle (world s).
Proof.
  intros Ha. rewrite cancelWaiting_world.
  destruct (cancelOne_spec msg (resourceCanceled msg s) _ (trigger_allocated msg s Ha))
    as (_ & _ & _ & -> & _).
  unfold resourceCanceled.
  destruct (cancelOne_spec msg (timeoutCleared s) _ (resource_allocated s Ha))
    as (_ & _ & _ & -> & _).
  apply clearTimeout_nextHandle.
Qed.

Lemma createPromise_spec ms w :
  (createPromise ms w).1 = nextHandle w
  ∧ isPending (createPromise ms w).2 (nextHandle w) = true
  ∧ (∀ q, q ≠ nextHandle w →
       deferreds (createPromise ms w).2 !! q = deferreds w !! q)
  ∧ calls (createPromise ms w).2 = (calls w ++ [Create (nextHandle w) ms])%list.
Proof.
  unfold createPromise, isPending. simpl. rewrite lookup_insert_eq.
  repeat split; try done. intros q Hq. by rewrite lookup_insert_ne.
Qed.

(** With a trigger registered, supersession is [cancelWaiting] followed by
    the creation of the new deferred. *)
Lemma createStatusTriggeredPromise_supersedes status timeoutMs since s t :
  statusTriggerResolvable (this s) = Some t →
  createStatusTriggeredPromise status timeoutMs since s
  = let s1 := cancelWaiting supersededMessage s in
    let pw := createPromise (default 60000 timeoutMs) (world s1) in
    (pw.1, {| this := setTrigger (Some pw.1) (Some status) since (this s1);
              world := pw.2 |}).
Proof. intros Ht. unfold createStatusTriggeredPromise. by rewrite Ht. Qed.

Lemma pendingTracked_trigger_last s t :
  statusTriggerResolvable (this s) = Some t → isPending (world s) t = true →
  ∃ pre, pendingTracked s = (pre ++ [t])%list.
Proof.
  intros Ht Hp. unfold pendingTracked, tracked. rewrite Ht.
  destruct (resourceIdResolvable (this s)) as [r|]; cbn [omap list_omap id List.filter].
  - destruct (isPending (world s) r) eqn:Hr; rewrite Hp; cbn [remove_dups].
    + destruct (decide_rel elem_of r [t]);
        destruct (decide_rel elem_of t []) as [Hn|_];
        try (by apply not_elem_of_nil in Hn).
      * by exists [].
      * by exists [r].
    + destruct (decide_rel elem_of t []) as [Hn|_]; [by apply not_elem_of_nil in Hn|].
      by exists [].
  - rewrite Hp. cbn [remove_dups].
    destruct (decide_rel elem_of t []) as [Hn|_]; [by apply not_elem_of_nil in Hn|].
    by exists [].
Qed.

(** Supersession inside [createStatusTriggeredPromise]: the pending
    deferred [p] of the prior trigger is rejected by a call that precedes
    the creation of the new deferred. *)
Lemma createStatusTriggeredPromise_rejects_trigger status timeoutMs since s p :
  allocated s →
  (p < nextHandle (world s))%nat →
  statusTriggerResolvable (this s) = Some p →
  isPending (world s) p = true →
  let q := (createStatusTriggeredPromise status timeoutMs since s).1 in
  let s' := (createStatusTriggeredPromise status timeoutMs since s).2 in
  settlementOf (world s') p = Some (Rejected (CanceledPromiseError supersededMessage))
  ∧ (∃ pre, calls (world s')
            = (calls (world s) ++ pre
               ++ [Reject p (CanceledPromiseError supersededMessage);
                   Create q (default 60000 timeoutMs)])%list)
  ∧ q ≠ p.
Proof.
  intros Ha Hlt Ht Hp q s'. subst q s'.
  rewrite (createStatusTriggeredPromise_supersedes _ _ _ _ _ Ht).
  cbn zeta. cbn [fst snd world this].
  set (s1 := cancelWaiting supersededMessage s).
  destruct (createPromise_spec (default 60000 timeoutMs) (world s1))
    as (-> & Hq & Hframe & ->).
  assert (nextHandle (world s1) = nextHandle (world s)) as Hn
    by (by apply cancelWaiting_nextHandle).
  assert (p ≠ nextHandle (world s1)) as Hne by lia.
  assert (p ∈ pendingTracked s) as Hin by (apply elem_of_pendingTracked; auto).
  split.
  { rewrite (settlementOf_frame _ _ _ (Hframe p Hne)). by apply cancelWaiting_rejected. }
  split; [|done].
  destruct (pendingTracked_trigger_last s p Ht Hp) as [pre Hpre].
  exists ((fun p => Reject p (CanceledPromiseError supersededMessage)) <$> pre).
  unfold s1 at 1. rewrite cancelWaiting_calls by done. rewrite Hpre, fmap_app.
  cbn [fmap list_fmap]. by rewrite <- !app_assoc.
Qed.

(** Supersession inside [createStatusTriggeredPromise] runs the whole of
    [cancelWaiting]: a pending resource id deferred is rejected as well. *)
Lemma createStatusTriggeredPromise_rejects_resource status timeoutMs since s t r :
  allocated s →
  (r < nextHandle (world s))%nat →
  statusTriggerResolvable (this s) = Some t →
  resourceIdResolvable (this s) = Some r →
  isPending (world s) r = true →
  let q := (createStatusTriggeredPromise status timeoutMs since s).1 in
  let s' := (createStatusTriggeredPromise status timeoutMs since s).2 in
  settlementOf (world s') r = Some (Rejected (CanceledPromiseError supersededMessage))
  ∧ Reject r (CanceledPromiseError supersededMessage) ∈ calls (world s')
  ∧ q ≠ r.
Proof.
  intros Ha Hlt Ht Hr Hp q s'. subst q s'.
  rewrite (createStatusTriggeredPromise_supersedes _ _ _ _ _ Ht).
  cbn zeta. cbn [fst snd world this].
  set (s1 := cancelWaiting supersededMessage s).
  destruct (createPromise_spec (default 60000 timeoutMs) (world s1))
    as (-> & Hq & Hframe & ->).
  assert (nextHandle (world s1) = nextHandle (world s)) as Hn
    by (by apply cancelWaiting_nextHandle).
  assert (r ≠ nextHandle (world s1)) as Hne by lia.
  assert (r ∈ pendingTracked s) as Hin by (apply elem_of_pendingTracked; auto).
  assert (Reject r (CanceledPromiseError supersededMessage) ∈ calls (world s1)) as Hc.
  { unfold s1. rewrite cancelWaiting_calls by done. apply elem_of_app. right.
    apply list_elem_of_fmap. by exists r. }
  split.
  { rewrite (settlementOf_frame _ _ _ (Hframe r Hne)). by apply cancelWaiting_rejected. }
  split; [|done]. apply elem_of_app. by left.
Qed.

(** ** Waits *)

Lemma asInteger_integerValue x z :
  asInteger (Some x) = Some z ↔ integerValue x z.
Proof.
  destruct x as [i|n d| |b]; simpl; try (split; [done | tauto]).
  - split; congruence.
  - destruct (n mod Z.pos d =? 0) eqn:Hm.
    + apply Z.eqb_eq in Hm. split.
      * intros [= <-]. rewrite (Z.div_mod n (Z.pos d)) at 1 by lia. lia.
      * intros ->. f_equal. apply Z.div_mul. lia.
    + apply Z.eqb_neq in Hm. split; [done|]. intros ->.
      destruct Hm. apply Z.mod_mul. lia.
Qed.

Section Waits.
Variable LoadStatusPipeline : string -> option Z.
Variable isLoadStatus : string -> bool.

(** C5: for a valid trigger, [waitForLocation] scopes the wait by
    [options.sinceCommandId] exactly when that is an integer and by the
    default cursor otherwise; if [hasLocationTrigger] holds for that scope
    at the call, the call returns a resolved promise and leaves the
    observer, the timers and the deferreds as they were; if not, the
    trigger it registers remembers that scope. *)
Theorem waitForLocation_scope_and_immediate status options navigations s :
  LocationTrigger.isMember status = true →
  ∃ since,
    (∀ x z, sinceCommandId options = Some x → integerValue x z → since = z)
    ∧ ((∀ x z, sinceCommandId options = Some x → ¬ integerValue x z) →
       since = defaultWaitForLocationCommandId (this s))
    ∧ (hasLocationTrigger navigations status since = true →
       waitForLocation status options navigations s = Normal ResolvedPromise s)
    ∧ (hasLocationTrigger navigations status since = false →
       ∃ p s', waitForLocation status options navigations s = Normal (PromiseOf p) s'
               ∧ statusTriggerResolvable (this s') = Some p
               ∧ statusTrigger (this s') = Some status
               ∧ statusTriggerStartCommandId (this s') = Some since).
Proof.
  intros Hm.
  exists (default (defaultWaitForLocationCommandId (this s))
            (asInteger (sinceCommandId options))).
  split; [|split; [|split]].
  - intros x z Hx Hz. rewrite Hx. apply asInteger_integerValue in Hz. by rewrite Hz.
  - intros Hn. destruct (sinceCommandId options) as [x|] eqn:Hx; [|done].
    destruct (asInteger (Some x)) as [z|] eqn:Hz; [|done].
    apply asInteger_integerValue in Hz. by destruct (Hn x z).
  - intros Hh. unfold waitForLocation. by rewrite Hm, Hh.
  - intros Hh. unfold waitForLocation. rewrite Hm, Hh. cbn [negb].
    eexists _, _. split; [done|]. done.
Qed.

(** [waitForLoad] throws for a truthy [sinceCommandId], before anything else
    than the validation of the status. *)
Lemma waitForLoad_sinceCommandId_truthy status options navigations s :
  isLoadStatus status = true →
  truthyNumber (sinceCommandId options) = true →
  waitForLoad LoadStatusPipeline isLoadStatus status options navigations s = Throw (PlainError "Not implemented") s.
Proof. intros Hs Ht. unfold waitForLoad. by rewrite Hs, Ht. Qed.

(** [waitForLoad] returns at once, changing nothing, when the timeline
    says that the status has been reached. *)
Lemma waitForLoad_already_loaded status options navigations s :
  isLoadStatus status = true →
  truthyNumber (sinceCommandId options) = false →
  hasLoadStatus navigations status = true →
  waitForLoad LoadStatusPipeline isLoadStatus status options navigations s
  = Normal ReturnedUndefined s.
Proof. intros Hs Ht Hh. unfold waitForLoad. by rewrite Hs, Ht, Hh. Qed.

(** A [sinceCommandId] of zero passes the guard: the call goes on as if the
    option had not been given. *)
Lemma waitForLoad_zero_as_no_option status timeout navigations s :
  waitForLoad LoadStatusPipeline isLoadStatus status
    {| timeoutMs := timeout; sinceCommandId := Some (JsInt 0) |} navigations s
  = waitForLoad LoadStatusPipeline isLoadStatus status
      {| timeoutMs := timeout; sinceCommandId := None |} navigations s.
Proof. done. Qed.

(** C10: without a top entry [waitForNavigationResourceId] completes at
    once, returning an undefined id; it neither throws nor awaits, and only
    forgets the resource id deferred it tracked. *)
Theorem waitForNavigationResourceId_without_navigation navigations s :
  top navigations = None →
  waitForNavigationResourceId navigations s
  = (ResourceId None,
     {| this := setResourceIdResolvable None (this s); world := world s |}).
Proof. intros Ht. unfold waitForNavigationResourceId. by rewrite Ht. Qed.


(** *** Load waits against the scan of the top entry *)

Lemma firstReaching_existsb rank ks :
  is_Some (firstReaching LoadStatusPipeline rank ks)
  ↔ existsb (fun k => negb (String.eqb k LoadStatus.HttpRedirected)
                      && reaches LoadStatusPipeline rank k) ks = true.
Proof.
  induction ks as [|k ks IH]; cbn [firstReaching existsb].
  - split; [by intros [? ?] | done].
  - destruct (String.eqb k LoadStatus.HttpRedirected); cbn [negb andb orb]; [done|].
    destruct (reaches LoadStatusPipeline rank k); cbn [orb]; [|done].
    split; [done | by eexists].
Qed.

(** The comparison made for [AllContentLoaded] is the one made for any key. *)
Lemma pipelineStatus_table status :
  pipelineStatus LoadStatusPipeline status = LoadStatusPipeline status.
Proof.
  unfold pipelineStatus. destruct (String.eqb status LoadStatus.AllContentLoaded) eqn:He; [|done].
  apply String.eqb_eq in He. by subst.
Qed.

Section LoadWait.
Variable status : string.
Variable rank : Z.
Variable p : nat.
Hypothesis Hnot_stable : String.eqb status LoadStatus.PaintingStable = false.
Hypothesis Hnot_location : isLocationTrigger (Some status) = false.
Hypothesis Hrank : LoadStatusPipeline status = Some rank.
Hypothesis Hnonzero : rank ≠ 0.

Lemma resolvePendingStatus_registered with_status s :
  registered status p s → resolved p (resolvePendingStatus with_status s).
Proof.
  intros (Ht & Hp & Hpend). unfold resolvePendingStatus.
  rewrite Hp, (isPending_not_resolved _ _ Hpend). split; [|done].
  cbn [world]. unfold resolve.
  apply settle_pending. by rewrite isPending_logCall, isPending_clearTimeout.
Qed.

Lemma onLoadStatusChange_registered navigations s :
  registered status p s →
  if reachedAt LoadStatusPipeline rank navigations
  then resolved p (stateOf (onLoadStatusChange LoadStatusPipeline navigations s))
       ∧ ∃ s', onLoadStatusChange LoadStatusPipeline navigations s = Normal tt s'
  else stateOf (onLoadStatusChange LoadStatusPipeline navigations s) = s
       ∧ (is_Some (top navigations) → onLoadStatusChange LoadStatusPipeline navigations s = Normal tt s).
Proof.
  intros Hreg. pose proof Hreg as (Ht & Hp & Hpend).
  unfold onLoadStatusChange, reachedAt.
  rewrite Ht, Hnot_location, Hp. cbn [mbind option_bind]. rewrite Hrank.
  rewrite (isPending_not_resolved _ _ Hpend). cbn [truthyZ orb negb].
  replace (rank =? 0) with false by (symmetry; by apply Z.eqb_neq).
  cbn [negb]. rewrite Hnot_stable.
  destruct (top navigations) as [t|]; [|split; [done | by intros [? ?]]].
  pose proof (firstReaching_existsb rank (keys (statusChanges t))) as Hscan.
  destruct (firstReaching LoadStatusPipeline rank (keys (statusChanges t))) as [k|].
  - rewrite (proj1 Hscan) by eauto. split; [|by eexists].
    by apply resolvePendingStatus_registered.
  - destruct (existsb _ _); [|done]. destruct (proj2 Hscan eq_refl) as [? ?]. done.
Qed.

Lemma onLoadStatusChange_idle navigations s :
  statusTrigger (this s) = None → onLoadStatusChange LoadStatusPipeline navigations s = Normal tt s.
Proof.
  intros Ht. unfold onLoadStatusChange. rewrite Ht. cbn.
  by destruct (statusTriggerResolvable (this s)).
Qed.

Lemma notifyAll_resolved snapshots :
  ∀ s, resolved p s →
       settlementOf (world (notifyAll LoadStatusPipeline isLoadStatus snapshots s)) p
       = Some (Fulfilled None).
Proof.
  induction snapshots as [|n rest IH]; intros s Hres; [by destruct Hres|].
  unfold notifyAll, run. cbn [fmap list_fmap fold_left perform].
  rewrite onLoadStatusChange_idle by (by destruct Hres). by apply IH.
Qed.

Lemma notifyAll_registered snapshots :
  ∀ s, registered status p s →
       settlementOf (world (notifyAll LoadStatusPipeline isLoadStatus snapshots s)) p
       = Some (if existsb (reachedAt LoadStatusPipeline rank) snapshots
               then Fulfilled None else Pending).
Proof.
  induction snapshots as [|n rest IH]; intros s Hreg.
  - cbn. destruct Hreg as (_ & _ & Hp). by apply isPending_settlementOf.
  - unfold notifyAll, run. cbn [fmap list_fmap fold_left perform existsb].
    pose proof (onLoadStatusChange_registered n s Hreg) as Hstep.
    destruct (reachedAt LoadStatusPipeline rank n); cbn [orb].
    + apply notifyAll_resolved, Hstep.
    + destruct Hstep as [-> _]. by apply IH.
Qed.

End LoadWait.

(** C1, as amended: for a load status other than [PaintingStable] whose
    pipeline rank is defined and not zero, a [waitForLoad] call that gets to
    register its trigger returns a deferred which, after any sequence of
    status-change notifications, is resolved if at the call or at one of the
    notifications the top entry recorded a milestone other than
    [HttpRedirected] of at least that rank, and is still pending if not. *)
Theorem waitForLoad_resolution status rank options navigations s snapshots :
  String.eqb status LoadStatus.PaintingStable = false →
  isLocationTrigger (Some status) = false →
  LoadStatusPipeline status = Some rank →
  rank ≠ 0 →
  isLoadStatus status = true →
  truthyNumber (sinceCommandId options) = false →
  hasLoadStatus navigations status = false →
  ∃ p s1,
    waitForLoad LoadStatusPipeline isLoadStatus status options navigations s = Normal (PromiseOf p) s1
    ∧ settlementOf (world (notifyAll LoadStatusPipeline isLoadStatus snapshots s1)) p
      = Some (if existsb (reachedAt LoadStatusPipeline rank) (navigations :: snapshots)
              then Fulfilled None else Pending).
Proof.
  intros Hps Hloc Hrank Hnz Hls Hsince Hhas.
  unfold waitForLoad. rewrite Hls, Hsince, Hhas. cbn [negb].
  set (ps := createStatusTriggeredPromise status (timeoutMs options) None s).
  assert (registered status ps.1 ps.2) as Hreg.
  { unfold ps, createStatusTriggeredPromise. cbn [fst snd]. repeat split.
    apply createPromise_spec. }
  cbn [existsb].
  pose proof (onLoadStatusChange_registered status rank ps.1 Hps Hloc Hrank Hnz
                navigations ps.2 Hreg) as Hstep.
  destruct (top navigations) as [t|] eqn:Htop.
  - destruct (reachedAt LoadStatusPipeline rank navigations); cbn [orb].
    + destruct Hstep as [Hres [s' Hs']]. rewrite Hs' in *. cbn [stateOf] in Hres.
      exists ps.1, s'. split; [done|]. by apply notifyAll_resolved.
    + destruct Hstep as [_ Hs']. rewrite Hs' by eauto.
      exists ps.1, ps.2. split; [done|]. by apply (notifyAll_registered status rank).
  - assert (reachedAt LoadStatusPipeline rank navigations = false) as ->
      by (unfold reachedAt; by rewrite Htop).
    exists ps.1, ps.2. split; [done|]. by apply (notifyAll_registered status rank).
Qed.

End Waits.

(** ** Registration through the wait calls *)

Lemma settle_frame p o w q :
  q ≠ p → deferreds (settle p o w) !! q = deferreds w !! q.
Proof.
  intros Hq. unfold settle. destruct (deferreds w !! p) as [[[] t]|]; try done.
  rewrite clearTimeout_deferreds. cbn [deferreds]. by rewrite lookup_insert_ne.
Qed.

Lemma settle_calls p o w : calls (settle p o w) = calls w.
Proof.
  unfold settle. destruct (deferreds w !! p) as [[[] t]|]; try done.
  by rewrite clearTimeout_calls.
Qed.

(** [resolvePendingStatus] touches the registered deferred only, and only
    adds calls. *)
Lemma resolvePendingStatus_frame with_status s :
  (∀ x, statusTriggerResolvable (this s) ≠ Some x →
        deferreds (world (resolvePendingStatus with_status s)) !! x
        = deferreds (world s) !! x)
  ∧ ∃ more, calls (world (resolvePendingStatus with_status s))
            = (calls (world s) ++ more)%list.
Proof.
  unfold resolvePendingStatus.
  destruct (statusTriggerResolvable (this s)) as [p|];
    [|split; [done | exists []; by rewrite app_nil_r]].
  destruct (isResolved (world s) p); [split; [done | exists []; by rewrite app_nil_r]|].
  cbn [world]. unfold resolve. split.
  - intros x Hx. rewrite settle_frame by congruence. cbn [logCall deferreds].
    by rewrite clearTimeout_deferreds.
  - exists [Resolve p]. rewrite settle_calls. cbn [logCall calls].
    by rewrite clearTimeout_calls.
Qed.

Section Registration.
Variable LoadStatusPipeline : string -> option Z.
Variable isLoadStatus : string -> bool.

Lemma waitForPageLoaded_frame navigations s :
  (∀ x, statusTriggerResolvable (this s) ≠ Some x →
        deferreds (world (stateOf (waitForPageLoaded navigations s))) !! x
        = deferreds (world s) !! x)
  ∧ ∃ more, calls (world (stateOf (waitForPageLoaded navigations s)))
            = (calls (world s) ++ more)%list.
Proof.
  unfold waitForPageLoaded.
  set (s1 := onWorld (clearTimeout (waitingForLoadTimeout (this s))) s).
  set (s2 := if isStable (getPaintStableStatus navigations)
             then resolvePendingStatus "PaintingStable + Load" s1 else s1).
  assert ((∀ x, statusTriggerResolvable (this s) ≠ Some x →
                deferreds (world s2) !! x = deferreds (world s) !! x)
          ∧ ∃ more, calls (world s2) = (calls (world s) ++ more)%list) as Hs2.
  { unfold s2. destruct (isStable _).
    - destruct (resolvePendingStatus_frame "PaintingStable + Load" s1) as [Hd [more Hc]].
      split.
      + intros x Hx. rewrite Hd by done. unfold s1. cbn [world onWorld].
        by rewrite clearTimeout_deferreds.
      + exists more. rewrite Hc. unfold s1. cbn [world onWorld].
        by rewrite clearTimeout_calls.
    - unfold s1. cbn [world onWorld]. rewrite clearTimeout_deferreds, clearTimeout_calls.
      split; [done | exists []; by rewrite app_nil_r]. }
  destruct (negb _ && truthyZ _)%bool; [|done].
  by destruct (top navigations).
Qed.

Lemma onLoadStatusChange_frame navigations s :
  (∀ x, statusTriggerResolvable (this s) ≠ Some x →
        deferreds (world (stateOf (onLoadStatusChange LoadStatusPipeline navigations s))) !! x
        = deferreds (world s) !! x)
  ∧ ∃ more, calls (world (stateOf (onLoadStatusChange LoadStatusPipeline navigations s)))
            = (calls (world s) ++ more)%list.
Proof.
  assert ((∀ x, statusTriggerResolvable (this s) ≠ Some x →
                deferreds (world s) !! x = deferreds (world s) !! x)
          ∧ ∃ more, calls (world s) = (calls (world s) ++ more)%list) as Hsame
    by (split; [done | exists []; by rewrite app_nil_r]).
  unfold onLoadStatusChange.
  destruct (isLocationTrigger (statusTrigger (this s))).
  { destruct (match statusTriggerStartCommandId (this s) with
              | Some since => _ | None => false end); [|done].
    apply resolvePendingStatus_frame. }
  destruct (statusTriggerResolvable (this s)) as [p|] eqn:Hp; [|done].
  destruct (statusTrigger (this s)) as [trigger|]; [|done].
  cbn [mbind option_bind].
  destruct (LoadStatusPipeline trigger) as [rank|]; [|done].
  destruct (isResolved (world s) p || negb (truthyZ (Some rank)))%bool; [done|].
  destruct (String.eqb trigger LoadStatus.PaintingStable).
  { rewrite <- Hp. apply waitForPageLoaded_frame. }
  destruct (top navigations) as [t|]; [|done].
  destruct (firstReaching _ _ _); [|done].
  cbn [stateOf]. rewrite <- Hp. apply resolvePendingStatus_frame.
Qed.

(** A wait call that registers a trigger has run
    [createStatusTriggeredPromise], and [onLoadStatusChange] at most. *)
Lemma registersBy_created a s q s' :
  registersBy LoadStatusPipeline isLoadStatus a s q s' →
  ∃ status since,
    q = (createStatusTriggeredPromise status (timeoutOf a) since s).1
    ∧ (∀ x, x ≠ q →
         deferreds (world s') !! x
         = deferreds (world (createStatusTriggeredPromise status (timeoutOf a) since s).2) !! x)
    ∧ ∃ more,
        calls (world s')
        = (calls (world (createStatusTriggeredPromise status (timeoutOf a) since s).2)
           ++ more)%list.
Proof.
  destruct a as [| status options navigations | status options navigations | | | | |];
    try done; cbn [registersBy timeoutOf].
  - unfold waitForLocation. destruct (negb _); [done|].
    destruct (hasLocationTrigger _ _ _); [done|]. intros [= <- <-].
    eexists status, _. split; [done|]. split; [done|]. exists []. by rewrite app_nil_r.
  - unfold waitForLoad. destruct (negb _); [done|].
    destruct (truthyNumber _); [done|]. destruct (hasLoadStatus _ _); [done|].
    set (ps := createStatusTriggeredPromise status (timeoutMs options) None s).
    destruct (top navigations).
    + pose proof (onLoadStatusChange_frame navigations ps.2) as [Hd Hc].
      destruct (onLoadStatusChange LoadStatusPipeline navigations ps.2) as [[] s2|];
        [|done].
      intros [= <- <-]. exists status, None. split; [done|]. split; [|done].
      intros x Hx. apply Hd. intros Heq. apply Hx.
      unfold ps, createStatusTriggeredPromise in Heq |- *.
      cbn [fst snd this setTrigger statusTriggerResolvable] in Heq |- *.
      by injection Heq as <-.
    + intros [= <- <-]. exists status, None. split; [done|]. split; [done|].
      exists []. by rewrite app_nil_r.
Qed.

(** C6: when [waitForLoad] or [waitForLocation] registers a trigger while
    the deferred [p] of a prior trigger is still pending, [p] ends rejected
    with the cancellation error, which no timeout error equals, and the call
    that rejects it precedes the creation of the new deferred [q]. *)
Theorem new_wait_rejects_prior_trigger a s q s' p :
  allocated s →
  (p < nextHandle (world s))%nat →
  statusTriggerResolvable (this s) = Some p →
  isPending (world s) p = true →
  registersBy LoadStatusPipeline isLoadStatus a s q s' →
  settlementOf (world s') p = Some (Rejected (CanceledPromiseError supersededMessage))
  ∧ (∀ m, CanceledPromiseError supersededMessage ≠ TimeoutError m)
  ∧ q ≠ p
  ∧ ∃ pre post,
      calls (world s')
      = (calls (world s) ++ pre
         ++ [Reject p (CanceledPromiseError supersededMessage);
             Create q (default 60000 (timeoutOf a))] ++ post)%list.
Proof.
  intros Ha Hlt Ht Hp Hreg.
  destruct (registersBy_created a s q s' Hreg) as (status & since & Hq & Hd & post & Hc).
  destruct (createStatusTriggeredPromise_rejects_trigger status (timeoutOf a) since s p
              Ha Hlt Ht Hp) as (Hs & [pre Hpre] & Hne).
  rewrite <- Hq in Hpre, Hne.
  split; [|split; [done|split; [done|]]].
  - unfold settlementOf. rewrite Hd by done. exact Hs.
  - exists pre, post. rewrite Hc, Hpre. by rewrite <- !app_assoc.
Qed.

(** C9: when [waitForLoad] or [waitForLocation] registers a trigger while
    another one exists, resolved or not, a pending deferred [r] of a
    navigation resource id that the observer tracks ends rejected, with the
    cancellation error of supersession: the call was made on it by the
    [cancelWaiting] that supersession runs. *)
Theorem new_wait_rejects_resource_id a s q s' t r :
  allocated s →
  (r < nextHandle (world s))%nat →
  statusTriggerResolvable (this s) = Some t →
  resourceIdResolvable (this s) = Some r →
  isPending (world s) r = true →
  registersBy LoadStatusPipeline isLoadStatus a s q s' →
  settlementOf (world s') r = Some (Rejected (CanceledPromiseError supersededMessage))
  ∧ Reject r (CanceledPromiseError supersededMessage) ∈ calls (world s')
  ∧ Reject r (CanceledPromiseError supersededMessage)
    ∈ calls (world (cancelWaiting supersededMessage s)).
Proof.
  intros Ha Hlt Ht Hr Hp Hreg.
  destruct (registersBy_created a s q s' Hreg) as (status & since & Hq & Hd & post & Hc).
  destruct (createStatusTriggeredPromise_rejects_resource status (timeoutOf a) since s t r
              Ha Hlt Ht Hr Hp) as (Hs & Hin & Hne).
  rewrite <- Hq in Hne.
  split; [|split].
  - unfold settlementOf. rewrite Hd by done. exact Hs.
  - rewrite Hc. apply elem_of_app. by left.
  - rewrite cancelWaiting_calls by done. apply elem_of_app. right.
    apply list_elem_of_fmap. exists r. split; [done|].
    apply elem_of_pendingTracked. auto.
Qed.

End Registration.

(** ** Settlement timers *)

Lemma noNew_refl w : noNewSettlementTimer w w.
Proof. by intros h t. Qed.

Lemma noNew_trans w1 w2 w3 :
  noNewSettlementTimer w1 w2 → noNewSettlementTimer w2 w3 → noNewSettlementTimer w1 w3.
Proof. intros H12 H23 h t Ht Hs. apply H12; [|done]. by apply H23. Qed.

Lemma quiet_refl s : quiet s s.
Proof. split; [done | apply noNew_refl]. Qed.

Lemma quiet_trans s1 s2 s3 : quiet s1 s2 → quiet s2 s3 → quiet s1 s3.
Proof.
  intros [E12 H12] [E23 H23]. split; [congruence | by eapply noNew_trans].
Qed.

Lemma quiet_preserves s s' : oneSettlementTimer s → quiet s s' → oneSettlementTimer s'.
Proof. intros Hinv [E Hn] h t Ht Hs. rewrite E. eapply Hinv; [|done]. by apply Hn. Qed.

Lemma noNew_clearTimeout h w : noNewSettlementTimer w (clearTimeout h w).
Proof.
  destruct h as [k|]; [|apply noNew_refl]. intros h t Ht _. simpl in Ht.
  rewrite lookup_delete in Ht. by case_decide.
Qed.

Lemma noNew_settle p o w : noNewSettlementTimer w (settle p o w).
Proof.
  unfold settle. destruct (deferreds w !! p) as [[[] k]|]; try apply noNew_refl.
  eapply noNew_trans; [|apply noNew_clearTimeout]. by intros h t.
Qed.

Lemma noNew_resolve p w : noNewSettlementTimer w (resolve p w).
Proof. unfold resolve. apply (noNew_settle p _ (logCall (Resolve p) w)). Qed.

Lemma noNew_reject p e w : noNewSettlementTimer w (reject p e w).
Proof. unfold reject. apply (noNew_settle p _ (logCall (Reject p e) w)). Qed.

Lemma noNew_createPromise ms w : noNewSettlementTimer w (createPromise ms w).2.
Proof.
  intros h t Ht Hs. simpl in Ht. rewrite lookup_insert in Ht.
  case_decide; [|done]. injection Ht as <-. done.
Qed.

Lemma noNew_cancelOne msg w o : noNewSettlementTimer w (cancelOne msg w o).
Proof.
  destruct o as [p|]; [|apply noNew_refl]. unfold cancelOne.
  destruct (isResolved w p); [apply noNew_refl | apply noNew_reject].
Qed.

Lemma quiet_resolvePendingStatus with_status s : quiet s (resolvePendingStatus with_status s).
Proof.
  unfold resolvePendingStatus. destruct (statusTriggerResolvable (this s)) as [p|];
    [|apply quiet_refl].
  destruct (isResolved (world s) p); [apply quiet_refl|]. split; [done|]. cbn [world].
  eapply noNew_trans; [apply noNew_clearTimeout | apply noNew_resolve].
Qed.

Lemma quiet_cancelWaiting msg s : quiet s (cancelWaiting msg s).
Proof.
  split; [done|]. rewrite cancelWaiting_world.
  eapply noNew_trans; [|apply noNew_cancelOne].
  eapply noNew_trans; [|apply noNew_cancelOne]. apply noNew_clearTimeout.
Qed.

Lemma quiet_createStatusTriggeredPromise status timeoutMs since s :
  quiet s (createStatusTriggeredPromise status timeoutMs since s).2.
Proof.
  unfold createStatusTriggeredPromise. cbn [snd].
  set (s1 := match statusTriggerResolvable (this s) with
             | Some _ => cancelWaiting "New location trigger created" s
             | None => s
             end).
  assert (quiet s s1) as [E H1].
  { unfold s1. destruct (statusTriggerResolvable (this s));
      [apply quiet_cancelWaiting | apply quiet_refl]. }
  split; [done|]. cbn [world]. eapply noNew_trans; [done | apply noNew_createPromise].
Qed.

Lemma quiet_waitForLocation status options navigations s :
  quiet s (stateOf (waitForLocation status options navigations s)).
Proof.
  unfold waitForLocation. destruct (negb (LocationTrigger.isMember status));
    [apply quiet_refl|].
  destruct (hasLocationTrigger _ _ _); [apply quiet_refl|].
  apply quiet_createStatusTriggeredPromise.
Qed.

Lemma quiet_fireTimer h s : quiet s (fireTimer h s).
Proof.
  unfold fireTimer. destruct (timers (world s) !! h) as [[ms [p|l c]]|];
    [| |apply quiet_refl].
  - split; [done|]. cbn [world onWorld].
    eapply noNew_trans; [apply noNew_clearTimeout | apply noNew_reject].
  - eapply quiet_trans; [|apply quiet_resolvePendingStatus].
    split; [done | apply noNew_clearTimeout].
Qed.

Section Timers.
Variable LoadStatusPipeline : string -> option Z.
Variable isLoadStatus : string -> bool.

Lemma waitForPageLoaded_oneSettlementTimer navigations s :
  oneSettlementTimer s →
  oneSettlementTimer (stateOf (waitForPageLoaded navigations s)).
Proof.
  intros Hinv. unfold waitForPageLoaded.
  set (s1 := onWorld (clearTimeout (waitingForLoadTimeout (this s))) s).
  set (s2 := if isStable (getPaintStableStatus navigations)
             then resolvePendingStatus "PaintingStable + Load" s1 else s1).
  assert (∀ h t, timers (world s1) !! h = Some t → isSettlementTimer t = true → False)
    as Hnone1.
  { intros h t Ht Hs. pose proof (noNew_clearTimeout _ _ h t Ht Hs) as Hold.
    specialize (Hinv h t Hold Hs). unfold s1 in Ht. cbn [world onWorld] in Ht.
    rewrite Hinv in Ht. simpl in Ht. by rewrite lookup_delete_eq in Ht. }
  assert (∀ h t, timers (world s2) !! h = Some t → isSettlementTimer t = true → False)
    as Hnone2.
  { intros h t Ht Hs. apply (Hnone1 h t); [|done]. unfold s2 in Ht.
    destruct (isStable _); [|done].
    by apply (quiet_resolvePendingStatus "PaintingStable + Load" s1). }
  assert (oneSettlementTimer s2) as Hinv2 by (intros h t Ht Hs; by destruct (Hnone2 h t)).
  destruct (negb _ && truthyZ _)%bool; [|done].
  destruct (top navigations) as [t|]; [|done].
  intros h tm Ht Hs. unfold setTimeout in *.
  cbn [stateOf this world setWaitingForLoadTimeout waitingForLoadTimeout fst snd timers] in *.
  rewrite lookup_insert in Ht. case_decide as Hh; [by subst|].
  by destruct (Hnone2 h tm).
Qed.

Lemma onLoadStatusChange_oneSettlementTimer navigations s :
  oneSettlementTimer s →
  oneSettlementTimer (stateOf (onLoadStatusChange LoadStatusPipeline navigations s)).
Proof.
  intros Hinv. unfold onLoadStatusChange.
  destruct (isLocationTrigger (statusTrigger (this s))).
  { destruct (match statusTriggerStartCommandId (this s) with
              | Some since => _ | None => false end); [|done].
    eapply quiet_preserves; [done | apply quiet_resolvePendingStatus]. }
  destruct (statusTriggerResolvable (this s)) as [p|]; [|done].
  destruct (statusTrigger (this s)) as [trigger|]; [|done].
  cbn [mbind option_bind].
  destruct (LoadStatusPipeline trigger) as [rank|]; [|done].
  destruct (isResolved (world s) p || negb (truthyZ (Some rank)))%bool; [done|].
  destruct (String.eqb trigger LoadStatus.PaintingStable).
  { by apply waitForPageLoaded_oneSettlementTimer. }
  destruct (top navigations) as [t|]; [|done].
  destruct (firstReaching _ _ _); [|done].
  eapply quiet_preserves; [done | apply quiet_resolvePendingStatus].
Qed.

Lemma waitForLoad_oneSettlementTimer status options navigations s :
  oneSettlementTimer s →
  oneSettlementTimer
    (stateOf (waitForLoad LoadStatusPipeline isLoadStatus status options navigations s)).
Proof.
  intros Hinv. unfold waitForLoad.
  destruct (negb (isLoadStatus status)); [done|].
  destruct (truthyNumber _); [done|].
  destruct (hasLoadStatus navigations status); [done|].
  set (ps := createStatusTriggeredPromise status (timeoutMs options) None s).
  assert (oneSettlementTimer ps.2) as Hinv'
    by (eapply quiet_preserves; [done | apply quiet_createStatusTriggeredPromise]).
  destruct (top navigations); [|done].
  pose proof (onLoadStatusChange_oneSettlementTimer navigations ps.2 Hinv') as Hstep.
  by destruct (onLoadStatusChange LoadStatusPipeline navigations ps.2).
Qed.

Lemma perform_oneSettlementTimer s a :
  oneSettlementTimer s →
  oneSettlementTimer (perform LoadStatusPipeline isLoadStatus s a).
Proof.
  intros Hinv. destruct a; cbn [perform].
  - eapply quiet_preserves; [done|]. split; [done | apply noNew_refl].
  - eapply quiet_preserves; [done | apply quiet_waitForLocation].
  - by apply waitForLoad_oneSettlementTimer.
  - eapply quiet_preserves; [done|]. unfold waitForNavigationResourceId. cbn zeta.
    repeat case_match; (split; [done | apply noNew_refl]).
  - eapply quiet_preserves; [done | apply quiet_cancelWaiting].
  - by apply onLoadStatusChange_oneSettlementTimer.
  - eapply quiet_preserves; [done | apply quiet_fireTimer].
  - eapply quiet_preserves; [done|]. split; [done | apply noNew_settle].
Qed.

Lemma run_oneSettlementTimer actions :
  ∀ s, oneSettlementTimer s →
       oneSettlementTimer (run LoadStatusPipeline isLoadStatus actions s).
Proof.
  induction actions as [|a rest IH]; intros s Hinv; [done|].
  unfold run. cbn [fold_left]. apply IH. by apply perform_oneSettlementTimer.
Qed.

Lemma oneSettlementTimer_size s :
  oneSettlementTimer s → (size (settlementTimers (world s)) ≤ 1)%nat.
Proof.
  intros Hinv. unfold settlementTimers.
  set (m := filter (λ ht : nat * Timer, isSettlementTimer ht.2 = true) (timers (world s))).
  assert (∀ h t, m !! h = Some t → waitingForLoadTimeout (this s) = Some h) as Hm.
  { intros h t Ht. apply map_lookup_filter_Some in Ht as [Ht Hs]. exact (Hinv h t Ht Hs). }
  destruct (waitingForLoadTimeout (this s)) as [k|].
  - pose proof (map_size_delete k m) as Hsz.
    assert (delete k m = ∅) as Hd.
    { apply map_empty. intros i. rewrite lookup_delete. case_decide; [done|].
      destruct (m !! i) as [t|] eqn:Hi; [|done].
      specialize (Hm i t Hi). congruence. }
    rewrite Hd, map_size_empty in Hsz.
    destruct (m !! k); simpl in Hsz; lia.
  - assert (m = ∅) as Hempty; [|rewrite Hempty, map_size_empty; lia].
    apply map_empty. intros i. destruct (m !! i) as [t|] eqn:Hi; [|done].
    by specialize (Hm i t Hi).
Qed.

(** C7: whatever the observer is asked to do and whatever happens to it,
    starting from a new observer, at most one settlement timer is armed:
    [waitForPageLoaded] clears the timer it remembers before it arms
    another, and nothing else arms one. *)
Theorem settlement_timers_at_most_one actions :
  (size (settlementTimers
           (world (run LoadStatusPipeline isLoadStatus actions initialState))) ≤ 1)%nat.
Proof.
  apply oneSettlementTimer_size, run_oneSettlementTimer.
  intros h t Ht _. change ((∅ : gmap nat Timer) !! h = Some t) in Ht.
  by rewrite lookup_empty in Ht.
Qed.
End Timers.

(** ** The properties at concrete inputs *)

(** C3 fails at its failing input: with [sinceCommandId: 0] a valid
    [waitForLoad] does not throw; it registers a pending trigger and arms
    the deadline timer of its deferred, as the call without the option
    does. *)
Theorem waitForLoad_sinceCommandId_zero_registers :
  ∃ s',
    waitForLoad examplePipeline exampleIsLoadStatus LoadStatus.DomContentLoaded
      zeroSinceCommandId (timelineAt respondedEntry false None) initialState
    = Normal (PromiseOf 0%nat) s'
    ∧ waitForLoad examplePipeline exampleIsLoadStatus LoadStatus.DomContentLoaded
        noOptions (timelineAt respondedEntry false None) initialState
      = Normal (PromiseOf 0%nat) s'
    ∧ statusTriggerResolvable (this s') = Some 0%nat
    ∧ statusTrigger (this s') = Some LoadStatus.DomContentLoaded
    ∧ isPending (world s') 0%nat = true
    ∧ timers (world s') !! 1%nat = Some {| delay := 60000; task := Deadline 0 |}.
Proof. eexists. repeat split; vm_compute; reflexivity. Qed.

(** C1, as stated, fails for [PaintingStable]: the wait registered while the
    page had only its DOM is resolved by the notification at which the
    timeline reports a stable painting, although the top entry never
    records a milestone of the rank of [PaintingStable] or more. *)
Lemma waitForLoad_PaintingStable_unreached :
  ∃ s1,
    waitForLoad examplePipeline exampleIsLoadStatus LoadStatus.PaintingStable
      noOptions (timelineAt domLoadedEntry false None) initialState
    = Normal (PromiseOf 0%nat) s1
    ∧ settlementOf (world s1) 0%nat = Some Pending
    ∧ settlementOf
        (world (notifyAll examplePipeline exampleIsLoadStatus
                  [timelineAt paintedEntry true None] s1)) 0%nat
      = Some (Fulfilled None)
    ∧ examplePipeline LoadStatus.PaintingStable = Some 5
    ∧ existsb (reachedAt examplePipeline 5)
        [timelineAt domLoadedEntry false None; timelineAt paintedEntry true None]
      = false.
Proof. eexists. repeat split; vm_compute; reflexivity. Qed.

(** The settlement timer is replaced, not accumulated: two notifications
    that each find the page unstable leave one timer, the newer. *)
Example settlement_timer_rearmed :
  let s :=
    run examplePipeline exampleIsLoadStatus
      [WaitForLoad LoadStatus.PaintingStable noOptions (timelineAt domLoadedEntry false (Some 500));
       StatusChange (timelineAt domLoadedEntry false (Some 400));
       StatusChange (timelineAt domLoadedEntry false (Some 300))]
      initialState in
  map_to_list (settlementTimers (world s))
  = [(4%nat, {| delay := 300; task := Settle None None |})]
  ∧ waitingForLoadTimeout (this s) = Some 4%nat.
Proof. split; vm_compute; reflexivity. Qed.

Lemma waitForLoad_resolution_witness :
  ∃ p s1,
    waitForLoad examplePipeline exampleIsLoadStatus LoadStatus.DomContentLoaded
      noOptions (timelineAt respondedEntry false None) initialState
    = Normal (PromiseOf p) s1
    ∧ settlementOf
        (world (notifyAll examplePipeline exampleIsLoadStatus
                  [timelineAt respondedEntry false None;
                   timelineAt domLoadedEntry false None] s1)) p
      = Some (if existsb (reachedAt examplePipeline 2)
                   [timelineAt respondedEntry false None;
                    timelineAt respondedEntry false None;
                    timelineAt domLoadedEntry false None]
              then Fulfilled None else Pending).
Proof.
  apply (waitForLoad_resolution examplePipeline exampleIsLoadStatus
           LoadStatus.DomContentLoaded 2 noOptions
           (timelineAt respondedEntry false None) initialState
           [timelineAt respondedEntry false None; timelineAt domLoadedEntry false None]);
    [reflexivity | reflexivity | reflexivity | lia | reflexivity | reflexivity | reflexivity].
Defined.

Lemma waitForLocation_scope_and_immediate_witness :
  ∃ since,
    (∀ x z, sinceCommandId {| timeoutMs := None; sinceCommandId := Some (JsInt 1) |}
            = Some x → integerValue x z → since = z)
    ∧ ((∀ x z, sinceCommandId {| timeoutMs := None; sinceCommandId := Some (JsInt 1) |}
               = Some x → ¬ integerValue x z) →
       since = defaultWaitForLocationCommandId (this initialState))
    ∧ (hasLocationTrigger (timelineOf [settledEntry; lostSlashEntry])
         LocationTrigger.change since = true →
       waitForLocation LocationTrigger.change
         {| timeoutMs := None; sinceCommandId := Some (JsInt 1) |}
         (timelineOf [settledEntry; lostSlashEntry]) initialState
       = Normal ResolvedPromise initialState)
    ∧ (hasLocationTrigger (timelineOf [settledEntry; lostSlashEntry])
         LocationTrigger.change since = false →
       ∃ p s',
         waitForLocation LocationTrigger.change
           {| timeoutMs := None; sinceCommandId := Some (JsInt 1) |}
           (timelineOf [settledEntry; lostSlashEntry]) initialState
         = Normal (PromiseOf p) s'
         ∧ statusTriggerResolvable (this s') = Some p
         ∧ statusTrigger (this s') = Some LocationTrigger.change
         ∧ statusTriggerStartCommandId (this s') = Some since).
Proof.
  apply (waitForLocation_scope_and_immediate LocationTrigger.change
           {| timeoutMs := None; sinceCommandId := Some (JsInt 1) |}
           (timelineOf [settledEntry; lostSlashEntry]) initialState).
  reflexivity.
Defined.

Lemma busyState_allocated : allocated busyState.
Proof. repeat constructor; eexists; vm_compute; reflexivity. Qed.

Lemma new_wait_rejects_prior_trigger_witness :
  let a := WaitForLoad LoadStatus.DomContentLoaded noOptions
             (timelineAt respondedEntry false None) in
  let s' := perform examplePipeline exampleIsLoadStatus busyState a in
  settlementOf (world s') 1%nat = Some (Rejected (CanceledPromiseError supersededMessage))
  ∧ (∀ m, CanceledPromiseError supersededMessage ≠ TimeoutError m)
  ∧ 3%nat ≠ 1%nat
  ∧ ∃ pre post,
      calls (world s')
      = (calls (world busyState) ++ pre
         ++ [Reject 1%nat (CanceledPromiseError supersededMessage);
             Create 3%nat (default 60000 (timeoutOf a))] ++ post)%list.
Proof.
  apply (new_wait_rejects_prior_trigger examplePipeline exampleIsLoadStatus
           (WaitForLoad LoadStatus.DomContentLoaded noOptions
              (timelineAt respondedEntry false None))
           busyState 3%nat _ 1%nat).
  - exact busyState_allocated.
  - vm_compute. lia.
  - vm_compute. reflexivity.
  - vm_compute. reflexivity.
  - vm_compute. reflexivity.
Defined.

Lemma cancelWaiting_exactly_once_witness :
  calls (world (cancelWaiting "closing" busyState))
  = (calls (world busyState)
     ++ ((fun p => Reject p (CanceledPromiseError "closing")) <$> pendingTracked busyState))%list
  ∧ NoDup (pendingTracked busyState)
  ∧ (∀ p, p ∈ pendingTracked busyState →
       settlementOf (world (cancelWaiting "closing" busyState)) p
       = Some (Rejected (CanceledPromiseError "closing")))
  ∧ (∀ p, p ∉ pendingTracked busyState →
       settlementOf (world (cancelWaiting "closing" busyState)) p
       = settlementOf (world busyState) p)
  ∧ (∀ msg', cancelWaiting msg' (cancelWaiting "closing" busyState)
             = cancelWaiting "closing" busyState).
Proof.
  apply (cancelWaiting_exactly_once "closing" busyState). exact busyState_allocated.
Defined.

(** In [busyState] both tracked deferreds are pending, so both are rejected. *)
Example busyState_pendingTracked : pendingTracked busyState = [0%nat; 1%nat].
Proof. vm_compute. reflexivity. Qed.

Lemma new_wait_rejects_resource_id_witness :
  let a := WaitForLocation LocationTrigger.reload noOptions
             (timelineAt respondedEntry false None) in
  let s' := perform examplePipeline exampleIsLoadStatus busyState a in
  settlementOf (world s') 0%nat = Some (Rejected (CanceledPromiseError supersededMessage))
  ∧ Reject 0%nat (CanceledPromiseError supersededMessage) ∈ calls (world s')
  ∧ Reject 0%nat (CanceledPromiseError supersededMessage)
    ∈ calls (world (cancelWaiting supersededMessage busyState)).
Proof.
  apply (new_wait_rejects_resource_id examplePipeline exampleIsLoadStatus
           (WaitForLocation LocationTrigger.reload noOptions
              (timelineAt respondedEntry false None))
           busyState 3%nat _ 1%nat 0%nat).
  - exact busyState_allocated.
  - vm_compute. lia.
  - vm_compute. reflexivity.
  - vm_compute. reflexivity.
  - vm_compute. reflexivity.
  - vm_compute. reflexivity.
Defined.

Lemma waitForNavigationResourceId_without_navigation_witness :
  waitForNavigationResourceId (timelineOf []) busyState
  = (ResourceId None,
     {| this := setResourceIdResolvable None (this busyState); world := world busyState |}).
Proof.
  apply (waitForNavigationResourceId_without_navigation (timelineOf []) busyState).
  reflexivity.
Defined.

(** * Further properties *)

(** ** Location triggers over the history *)

Lemma isLocationChange_reload previous h :
  isLocationChange LocationTrigger.reload previous h
  = isNavigationReload (navigationReason h).
Proof.
  unfold isLocationChange.
  change (String.eqb LocationTrigger.reload LocationTrigger.reload) with true.
  change (String.eqb LocationTrigger.reload LocationTrigger.change) with false.
  by destruct previous.
Qed.

(** X1: a [reload] trigger is satisfied exactly when some entry of the history
    that started at or after the scope has the navigation reason
    [httpHeaderRefresh], [metaTagRefresh] or [reload]; urls and load statuses
    play no part. *)
Theorem reload_trigger_satisfaction navigations since :
  hasLocationTrigger navigations LocationTrigger.reload since = true
  ↔ ∃ h, h ∈ history navigations
         ∧ since ≤ startCommandId h
         ∧ navigationReason h ∈ ["httpHeaderRefresh"; "metaTagRefresh"; "reload"].
Proof.
  unfold hasLocationTrigger. rewrite hasLocationTrigger_loop_iff.
  assert (∀ h, isNavigationReload (navigationReason h) = true
               ↔ navigationReason h ∈ ["httpHeaderRefresh"; "metaTagRefresh"; "reload"])
    as Hreason.
  { intros h. unfold isNavigationReload.
    rewrite !orb_true_iff, !String.eqb_eq, !elem_of_cons, elem_of_nil. tauto. }
  split.
  - intros (pre & h & post & Hs & Hle & Hc). exists h.
    rewrite isLocationChange_reload in Hc. split; [|split; [done | by apply Hreason]].
    rewrite Hs. apply elem_of_app. right. apply elem_of_cons. by left.
  - intros (h & Hin & Hle & Hr).
    apply list_elem_of_split in Hin as (pre & post & Hs).
    exists pre, h, post. split; [done|]. split; [done|].
    rewrite isLocationChange_reload. by apply Hreason.
Qed.

(** X2: a location trigger that is satisfied for a scope is satisfied for every
    earlier scope: lowering [sinceCommandId] never loses a match. *)
Theorem hasLocationTrigger_scope_widens navigations trigger since since' :
  since' ≤ since →
  hasLocationTrigger navigations trigger since = true →
  hasLocationTrigger navigations trigger since' = true.
Proof.
  intros Hle. unfold hasLocationTrigger. rewrite !hasLocationTrigger_loop_iff.
  intros (pre & h & post & Hs & Hsince & Hc). exists pre, h, post.
  split; [done|]. split; [lia | done].
Qed.

(** X3: a location trigger that is satisfied stays satisfied when entries are
    appended to the history. *)
Theorem hasLocationTrigger_history_grows navigations navigations' more trigger since :
  history navigations' = (history navigations ++ more)%list →
  hasLocationTrigger navigations trigger since = true →
  hasLocationTrigger navigations' trigger since = true.
Proof.
  intros Hh. unfold hasLocationTrigger. rewrite Hh, !hasLocationTrigger_loop_iff.
  intros (pre & h & post & Hs & Hsince & Hc). exists pre, h, (post ++ more)%list.
  split; [|done]. rewrite Hs. by rewrite <- app_assoc.
Qed.

(** ** The cursor of willRunCommand *)

Lemma lastAnchor_origin commands :
  ∀ before a, lastAnchor before commands = Some a →
              a ∈ ICommandMeta.id <$> commands.
Proof.
  induction commands as [|c rest IH]; intros before a; cbn [lastAnchor]; [done|].
  rewrite fmap_cons, elem_of_cons.
  destruct (lastAnchor (Some c) rest) as [a'|] eqn:Hrest.
  - intros [= <-]. right. by eapply IH.
  - destruct (movesCursor before c); [|done]. intros [= <-]. by left.
Qed.

Lemma lastAnchor_goto_last commands g :
  ICommandMeta.name g = "goto" →
  ∀ before, lastAnchor before (commands ++ [g])%list = Some (ICommandMeta.id g).
Proof.
  intros Hg. induction commands as [|c rest IH]; intros before.
  - cbn [app lastAnchor]. unfold movesCursor. by rewrite Hg.
  - cbn [app lastAnchor]. by rewrite IH.
Qed.

(** X4: after [willRunCommand] the default scope of [waitForLocation] is the
    one it was, or the id of one of the previous commands, or the id of the
    new command; no other value is ever produced. *)
Theorem willRunCommand_cursor_origin newCommand previousCommands o :
  defaultWaitForLocationCommandId (willRunCommand newCommand previousCommands o)
  ∈ defaultWaitForLocationCommandId o
    :: (ICommandMeta.id <$> (previousCommands ++ [newCommand])%list).
Proof.
  unfold willRunCommand. cbn [defaultWaitForLocationCommandId].
  rewrite willRunCommand_scan. cbn [fst snd].
  rewrite fmap_app, elem_of_cons, elem_of_app.
  destruct (_ && _)%bool.
  - right. right. cbn. apply elem_of_cons. by left.
  - destruct (lastAnchor None previousCommands) as [a|] eqn:Ha; [|by left].
    right. left. by eapply lastAnchor_origin.
Qed.

(** X5: when the last previous command is a [goto], the default scope becomes
    the id of that command, whatever the new command and the commands
    before it are. *)
Theorem willRunCommand_after_goto newCommand previousCommands g o :
  last previousCommands = Some g →
  ICommandMeta.name g = "goto" →
  defaultWaitForLocationCommandId (willRunCommand newCommand previousCommands o)
  = ICommandMeta.id g.
Proof.
  intros Hlast Hg.
  assert (∃ l, previousCommands = (l ++ [g])%list) as [l ->].
  { destruct (proj1 (last_Some previousCommands g) Hlast) as [l ->]. by exists l. }
  unfold willRunCommand. cbn [defaultWaitForLocationCommandId].
  rewrite willRunCommand_scan. cbn [fst snd].
  rewrite Hlast, (lastAnchor_goto_last l g Hg). cbn. rewrite Hg.
  by rewrite andb_false_r.
Qed.

(** X6: a [waitForLocation] that follows a command whose name starts with
    [waitFor], other than [waitForMillis], moves the default scope to the new
    command itself. *)
Theorem willRunCommand_back_to_back_waits newCommand previousCommands l o :
  last previousCommands = Some l →
  startsWith (ICommandMeta.name l) "waitFor" = true →
  ICommandMeta.name l ≠ "waitForMillis" →
  ICommandMeta.name newCommand = "waitForLocation" →
  defaultWaitForLocationCommandId (willRunCommand newCommand previousCommands o)
  = ICommandMeta.id newCommand.
Proof.
  intros Hlast Hw Hm Hn. unfold willRunCommand. cbn [defaultWaitForLocationCommandId].
  rewrite willRunCommand_scan. cbn [fst snd]. rewrite Hlast. cbn.
  rewrite Hn, Hw. apply String.eqb_neq in Hm. by rewrite Hm.
Qed.

Lemma settle_pending_or_not p o w k :
  timers w !! k = None → timers (settle p o w) !! k = None.
Proof.
  intros Hk. unfold settle. destruct (deferreds w !! p) as [[[] t]|]; try done.
  by apply clearTimeout_timers_None.
Qed.

(** A timer that is not armed stays so through [resolvePendingStatus]. *)
Lemma quiet_timer_gone with_status s h :
  timers (world s) !! h = None →
  timers (world (resolvePendingStatus with_status s)) !! h = None.
Proof.
  intros Hh. unfold resolvePendingStatus.
  destruct (statusTriggerResolvable (this s)) as [p|]; [|done].
  destruct (isResolved (world s) p); [done|]. cbn [world]. unfold resolve.
  apply settle_pending_or_not. cbn [logCall timers]. by apply clearTimeout_timers_None.
Qed.

Section MoreWaits.
Variable LoadStatusPipeline : string -> option Z.
Variable isLoadStatus : string -> bool.

(** *** Location waits *)

Lemma isMember_isLocationTrigger status :
  LocationTrigger.isMember status = true → isLocationTrigger (Some status) = true.
Proof.
  unfold LocationTrigger.isMember, isLocationTrigger.
  rewrite !orb_true_iff. tauto.
Qed.

Lemma onLoadStatusChange_location status since p navigations s :
  LocationTrigger.isMember status = true →
  registeredSince status since p s →
  onLoadStatusChange LoadStatusPipeline navigations s
  = Normal tt (if hasLocationTrigger navigations status since
               then resolvePendingStatus status s else s).
Proof.
  intros Hm [(Ht & Hp & Hpend) Hsince]. unfold onLoadStatusChange.
  rewrite Ht, (isMember_isLocationTrigger _ Hm), Hsince. simpl.
  by destruct (hasLocationTrigger navigations status since).
Qed.

Lemma notifyAll_location status since p snapshots :
  LocationTrigger.isMember status = true →
  ∀ s, registeredSince status since p s →
       settlementOf (world (notifyAll LoadStatusPipeline isLoadStatus snapshots s)) p
       = Some (if existsb (fun n => hasLocationTrigger n status since) snapshots
               then Fulfilled None else Pending).
Proof.
  intros Hm. induction snapshots as [|n rest IH]; intros s Hreg.
  - cbn. destruct Hreg as [(_ & _ & Hp) _]. by apply isPending_settlementOf.
  - unfold notifyAll, run. cbn [fmap list_fmap fold_left perform existsb].
    rewrite (onLoadStatusChange_location status since p n s Hm Hreg). cbn [stateOf].
    destruct (hasLocationTrigger n status since); cbn [orb].
    + apply notifyAll_resolved. apply (resolvePendingStatus_registered status).
      by destruct Hreg.
    + by apply IH.
Qed.

(** X7: a [waitForLocation] that is not satisfied at the call returns a
    pending promise; after any sequence of status notifications that promise
    is fulfilled if one of the notified timelines satisfies the trigger for
    the scope of the call, and is still pending otherwise. *)
Theorem waitForLocation_resolution status options navigations s snapshots :
  LocationTrigger.isMember status = true →
  hasLocationTrigger navigations status
    (default (defaultWaitForLocationCommandId (this s))
       (asInteger (sinceCommandId options))) = false →
  ∃ p s1,
    waitForLocation status options navigations s = Normal (PromiseOf p) s1
    ∧ settlementOf (world (notifyAll LoadStatusPipeline isLoadStatus snapshots s1)) p
      = Some (if existsb
                   (fun n => hasLocationTrigger n status
                               (default (defaultWaitForLocationCommandId (this s))
                                  (asInteger (sinceCommandId options))))
                   snapshots
              then Fulfilled None else Pending).
Proof.
  intros Hm Hh. unfold waitForLocation. rewrite Hm, Hh. cbn [negb].
  eexists _, _. split; [done|].
  apply (notifyAll_location status); [done|].
  unfold createStatusTriggeredPromise. cbn [fst snd].
  repeat split; apply createPromise_spec.
Qed.

(** *** Painting-stable waits *)

Section PaintingStable.
Variable rank : Z.
Variable p : nat.
Hypothesis Hrank : LoadStatusPipeline LoadStatus.PaintingStable = Some rank.
Hypothesis Hnonzero : rank ≠ 0.

Lemma onLoadStatusChange_painting navigations s :
  registered LoadStatus.PaintingStable p s →
  onLoadStatusChange LoadStatusPipeline navigations s = waitForPageLoaded navigations s.
Proof.
  intros (Ht & Hp & Hpend). unfold onLoadStatusChange.
  rewrite Ht, Hp. cbn [isLocationTrigger mbind option_bind].
  change (String.eqb LoadStatus.PaintingStable LocationTrigger.change) with false.
  change (String.eqb LoadStatus.PaintingStable LocationTrigger.reload) with false.
  cbn [orb]. rewrite Hrank, (isPending_not_resolved _ _ Hpend). cbn [truthyZ orb].
  replace (rank =? 0) with false by (symmetry; by apply Z.eqb_neq).
  by cbn.
Qed.

(** [waitForPageLoaded] on a registered wait: resolved when stable, still
    registered when not. *)
Lemma waitForPageLoaded_registered navigations s :
  registered LoadStatus.PaintingStable p s →
  if stableAt navigations
  then resolved p (stateOf (waitForPageLoaded navigations s))
       ∧ ∃ s', waitForPageLoaded navigations s = Normal tt s'
  else registered LoadStatus.PaintingStable p (stateOf (waitForPageLoaded navigations s))
       ∧ (is_Some (top navigations) →
          ∃ s', waitForPageLoaded navigations s = Normal tt s').
Proof.
  intros Hreg. unfold waitForPageLoaded, stableAt.
  set (s1 := onWorld (clearTimeout (waitingForLoadTimeout (this s))) s).
  assert (registered LoadStatus.PaintingStable p s1) as Hreg1.
  { destruct Hreg as (Ht & Hp & Hpend).
    repeat split; try done; unfold s1; cbn [world onWorld];
      by rewrite isPending_clearTimeout. }
  destruct (isStable (getPaintStableStatus navigations)); cbn [negb andb].
  - split; [|by eexists]. by apply (resolvePendingStatus_registered LoadStatus.PaintingStable).
  - destruct (truthyZ _); [|split; [done | by eexists]].
    destruct (top navigations) as [t|]; cbn [stateOf].
    + split; [|by eexists]. destruct Hreg1 as (Ht & Hp & Hpend). by repeat split.
    + split; [done | by intros [? ?]].
Qed.

Lemma notifyAll_painting snapshots :
  ∀ s, registered LoadStatus.PaintingStable p s →
       settlementOf (world (notifyAll LoadStatusPipeline isLoadStatus snapshots s)) p
       = Some (if existsb stableAt snapshots then Fulfilled None else Pending).
Proof.
  induction snapshots as [|n rest IH]; intros s Hreg.
  - cbn. destruct Hreg as (_ & _ & Hp). by apply isPending_settlementOf.
  - unfold notifyAll, run. cbn [fmap list_fmap fold_left perform existsb].
    rewrite (onLoadStatusChange_painting n s Hreg).
    pose proof (waitForPageLoaded_registered n s Hreg) as Hstep.
    destruct (stableAt n); cbn [orb].
    + apply notifyAll_resolved, Hstep.
    + apply IH, Hstep.
Qed.

End PaintingStable.

(** X8: a [waitForLoad] for [PaintingStable] that does not return at once
    gives a promise that, after any sequence of status notifications, is
    fulfilled if the timeline of the call (when it has a top entry) or one of
    the notified timelines reports a stable painting, and is pending
    otherwise. *)
Theorem waitForLoad_PaintingStable_resolution rank options navigations s snapshots :
  LoadStatusPipeline LoadStatus.PaintingStable = Some rank →
  rank ≠ 0 →
  isLoadStatus LoadStatus.PaintingStable = true →
  truthyNumber (sinceCommandId options) = false →
  hasLoadStatus navigations LoadStatus.PaintingStable = false →
  ∃ p s1,
    waitForLoad LoadStatusPipeline isLoadStatus LoadStatus.PaintingStable options
      navigations s = Normal (PromiseOf p) s1
    ∧ settlementOf (world (notifyAll LoadStatusPipeline isLoadStatus snapshots s1)) p
      = Some (if (bool_decide (is_Some (top navigations)) && stableAt navigations)
                 || existsb stableAt snapshots
              then Fulfilled None else Pending).
Proof.
  intros Hrank Hnz Hls Hsince Hhas.
  unfold waitForLoad. rewrite Hls, Hsince, Hhas. cbn [negb].
  set (ps := createStatusTriggeredPromise LoadStatus.PaintingStable (timeoutMs options) None s).
  assert (registered LoadStatus.PaintingStable ps.1 ps.2) as Hreg.
  { unfold ps, createStatusTriggeredPromise. cbn [fst snd]. repeat split.
    apply createPromise_spec. }
  destruct (top navigations) as [t|] eqn:Htop.
  - rewrite bool_decide_true by eauto. cbn [andb].
    rewrite (onLoadStatusChange_painting rank ps.1 Hrank Hnz navigations ps.2 Hreg).
    pose proof (waitForPageLoaded_registered ps.1 navigations ps.2 Hreg) as Hstep.
    destruct (stableAt navigations); cbn [orb].
    + destruct Hstep as [Hres [s' Hs']]. rewrite Hs' in *.
      exists ps.1, s'. split; [done|]. by apply notifyAll_resolved.
    + destruct Hstep as [Hreg' Hs']. destruct Hs' as [s' Hs']; [by rewrite Htop|].
      rewrite Hs' in *. exists ps.1, s'. split; [done|].
      by apply (notifyAll_painting rank).
  - rewrite bool_decide_false by (by intros [? ?]). cbn [andb orb].
    exists ps.1, ps.2. split; [done|]. by apply (notifyAll_painting rank).
Qed.

(** X9: when a [PaintingStable] wait is notified of a timeline that is not
    stable but asks for a time until ready, a timer is armed for that time,
    carrying the load and paint times of the top entry; the promise stays
    pending until the timer fires, which resolves it, and the timer is no
    longer armed afterwards. *)
Theorem settlement_timer_resolves rank p navigations t ms s :
  LoadStatusPipeline LoadStatus.PaintingStable = Some rank →
  rank ≠ 0 →
  registered LoadStatus.PaintingStable p s →
  top navigations = Some t →
  getPaintStableStatus navigations = {| isStable := false; timeUntilReadyMs := Some ms |} →
  ms ≠ 0 →
  ∃ h s',
    onLoadStatusChange LoadStatusPipeline navigations s = Normal tt s'
    ∧ waitingForLoadTimeout (this s') = Some h
    ∧ timers (world s') !! h
      = Some {| delay := ms;
                task := Settle (get (statusChanges t) LoadStatus.AllContentLoaded)
                               (get (statusChanges t) ContentPaint) |}
    ∧ settlementOf (world s') p = Some Pending
    ∧ resolved p (fireTimer h s')
    ∧ timers (world (fireTimer h s')) !! h = None.
Proof.
  intros Hrank Hnz Hreg Htop Hpaint Hms.
  rewrite (onLoadStatusChange_painting rank p Hrank Hnz navigations s Hreg).
  unfold waitForPageLoaded. rewrite Hpaint, Htop. cbn [isStable timeUntilReadyMs negb andb truthyZ].
  replace (ms =? 0) with false by (symmetry; by apply Z.eqb_neq). cbn [negb default].
  set (s1 := onWorld (clearTimeout (waitingForLoadTimeout (this s))) s).
  assert (registered LoadStatus.PaintingStable p s1) as (Ht & Hp & Hpend).
  { destruct Hreg as (Ht & Hp & Hpend).
    repeat split; try done; unfold s1; cbn [world onWorld];
      by rewrite isPending_clearTimeout. }
  eexists _, _. split; [done|]. cbn [this world setWaitingForLoadTimeout
    waitingForLoadTimeout setTimeout fst snd timers]. split; [done|].
  split; [by rewrite lookup_insert_eq|]. split.
  { by apply isPending_settlementOf. }
  unfold fireTimer. cbn [this world setWaitingForLoadTimeout setTimeout fst snd timers].
  rewrite lookup_insert_eq.
  set (s2 := onWorld (clearTimeout (Some (nextHandle (world s1)))) _).
  assert (registered LoadStatus.PaintingStable p s2) as Hreg2.
  { repeat split; try done; unfold s2; cbn [world onWorld];
      by rewrite isPending_clearTimeout. }
  split; [by apply (resolvePendingStatus_registered LoadStatus.PaintingStable)|].
  apply (quiet_timer_gone "TimeElapsed" s2). unfold s2. cbn [world onWorld].
  apply clearTimeout_cleared.
Qed.

End MoreWaits.

Lemma resolvePendingStatus_cases with_status s :
  resolvePendingStatus with_status s = s
  ∨ statusTrigger (this (resolvePendingStatus with_status s)) = None.
Proof.
  unfold resolvePendingStatus. destruct (statusTriggerResolvable (this s)) as [p|]; [|by left].
  destruct (isResolved (world s) p); [by left | by right].
Qed.

Lemma resolvePendingStatus_settled with_status s :
  (∀ p, statusTriggerResolvable (this s) = Some p → isResolved (world s) p = true) →
  resolvePendingStatus with_status s = s.
Proof.
  intros Hres. unfold resolvePendingStatus.
  destruct (statusTriggerResolvable (this s)) as [p|]; [|done]. by rewrite Hres.
Qed.

Section Notifications.
Variable LoadStatusPipeline : string -> option Z.
Variable isLoadStatus : string -> bool.

(** X11: the notification handler throws only when the timeline has no top
    entry while a promise is registered for a trigger that is a load status
    of the pipeline. *)
Theorem onLoadStatusChange_throws_without_top navigations s e s' :
  onLoadStatusChange LoadStatusPipeline navigations s = Throw e s' →
  top navigations = None
  ∧ is_Some (statusTriggerResolvable (this s))
  ∧ is_Some (statusTrigger (this s) ≫= LoadStatusPipeline).
Proof.
  unfold onLoadStatusChange.
  destruct (isLocationTrigger (statusTrigger (this s))).
  { by destruct (match statusTriggerStartCommandId (this s) with
                 | Some since => _ | None => false end). }
  destruct (statusTriggerResolvable (this s)) as [p|]; [|done].
  destruct (statusTrigger (this s)) as [trigger|]; [|done].
  cbn [mbind option_bind].
  destruct (LoadStatusPipeline trigger) as [rank|]; [|done].
  destruct (isResolved (world s) p || negb (truthyZ (Some rank)))%bool; [done|].
  destruct (String.eqb trigger LoadStatus.PaintingStable).
  - unfold waitForPageLoaded. destruct (negb _ && truthyZ _)%bool; [|done].
    destruct (top navigations); [done|]. intros _. eauto.
  - destruct (top navigations); [|intros _; eauto].
    by destruct (firstReaching _ _ _).
Qed.

(** Whatever it does, the handler leaves the state as it was or forgets a
    trigger it has resolved, unless the trigger is [PaintingStable]. *)
Lemma onLoadStatusChange_cases navigations s :
  statusTrigger (this s) ≠ Some LoadStatus.PaintingStable →
  stateOf (onLoadStatusChange LoadStatusPipeline navigations s) = s
  ∨ (onLoadStatusChange LoadStatusPipeline navigations s
     = Normal tt (stateOf (onLoadStatusChange LoadStatusPipeline navigations s))
     ∧ statusTrigger (this (stateOf (onLoadStatusChange LoadStatusPipeline navigations s)))
       = None).
Proof.
  intros Hps. unfold onLoadStatusChange.
  destruct (isLocationTrigger (statusTrigger (this s))).
  { destruct (match statusTriggerStartCommandId (this s) with
              | Some since => _ | None => false end); [|by left].
    cbn [stateOf]. destruct (resolvePendingStatus_cases
                               (default "" (statusTrigger (this s))) s) as [->|Hn];
      [by left | by right]. }
  destruct (statusTriggerResolvable (this s)) as [p|]; [|by left].
  destruct (statusTrigger (this s)) as [trigger|]; [|by left].
  cbn [mbind option_bind].
  destruct (LoadStatusPipeline trigger) as [rank|]; [|by left].
  destruct (isResolved (world s) p || negb (truthyZ (Some rank)))%bool; [by left|].
  destruct (String.eqb trigger LoadStatus.PaintingStable) eqn:He.
  { apply String.eqb_eq in He. by subst. }
  destruct (top navigations); [|by left].
  destruct (firstReaching _ _ _) as [k|]; [|by left]. cbn [stateOf].
  destruct (resolvePendingStatus_cases k s) as [->|Hn]; [by left | by right].
Qed.

(** X10: for a trigger other than [PaintingStable], delivering the same
    notification a second time changes nothing: the handler ends as it did
    the first time, in the same state. *)
Theorem onLoadStatusChange_duplicate navigations s :
  statusTrigger (this s) ≠ Some LoadStatus.PaintingStable →
  onLoadStatusChange LoadStatusPipeline navigations
    (stateOf (onLoadStatusChange LoadStatusPipeline navigations s))
  = onLoadStatusChange LoadStatusPipeline navigations s.
Proof.
  intros Hps. destruct (onLoadStatusChange_cases navigations s Hps) as [-> | [Hn Hidle]];
    [done|].
  rewrite onLoadStatusChange_idle by done. by rewrite <- Hn.
Qed.

(** With its trigger settled, or without one, the handler does nothing. *)
Lemma onLoadStatusChange_settled navigations s :
  (∀ p, statusTriggerResolvable (this s) = Some p → isResolved (world s) p = true) →
  onLoadStatusChange LoadStatusPipeline navigations s = Normal tt s.
Proof.
  intros Hres. unfold onLoadStatusChange.
  destruct (isLocationTrigger (statusTrigger (this s))).
  { rewrite resolvePendingStatus_settled by done.
    by destruct (match statusTriggerStartCommandId (this s) with
                 | Some since => _ | None => false end). }
  destruct (statusTriggerResolvable (this s)) as [p|]; [|done].
  destruct (statusTrigger (this s)) as [trigger|]; [|done].
  cbn [mbind option_bind].
  destruct (LoadStatusPipeline trigger) as [rank|]; [|done].
  by rewrite (Hres p eq_refl).
Qed.

Lemma notifyAll_settled snapshots s :
  (∀ p, statusTriggerResolvable (this s) = Some p → isResolved (world s) p = true) →
  notifyAll LoadStatusPipeline isLoadStatus snapshots s = s.
Proof.
  intros Hres. induction snapshots as [|n rest IH]; [done|].
  unfold notifyAll, run. cbn [fmap list_fmap fold_left perform].
  rewrite onLoadStatusChange_settled by done. exact IH.
Qed.

(** X12: after [cancelWaiting], in a state whose tracked deferreds exist,
    status notifications change nothing: the state stays the one that
    [cancelWaiting] left, so a wait that was cancelled is not resolved later. *)
Theorem cancelled_wait_stays_cancelled msg snapshots s :
  allocated s →
  notifyAll LoadStatusPipeline isLoadStatus snapshots (cancelWaiting msg s)
  = cancelWaiting msg s.
Proof.
  intros Ha. apply notifyAll_settled. rewrite cancelWaiting_this. intros p Hp.
  rewrite isPending_isResolved.
  - rewrite (cancelWaiting_isPending msg s Ha), Hp.
    rewrite (bool_decide_true (Some p = Some p)) by done.
    by rewrite andb_false_r.
  - rewrite cancelWaiting_world. by apply cancelOne_allocated, trigger_allocated.
Qed.

(** X13: in every state the observer reaches from its first one by its own
    methods and timers, [cancelWaiting] leaves no settlement timer armed. *)
Theorem cancelWaiting_clears_settlement_timer msg actions :
  settlementTimers
    (world (cancelWaiting msg (run LoadStatusPipeline isLoadStatus actions initialState)))
  = ∅.
Proof.
  set (s := run LoadStatusPipeline isLoadStatus actions initialState).
  assert (oneSettlementTimer s) as Hinv.
  { apply run_oneSettlementTimer. intros h t Ht _.
    change ((∅ : gmap nat Timer) !! h = Some t) in Ht. by rewrite lookup_empty in Ht. }
  apply map_empty. intros h. unfold settlementTimers.
  destruct (filter _ _ !! h) as [t|] eqn:Hh; [|done].
  apply map_lookup_filter_Some in Hh as [Hh Hs]. cbn [snd] in Hs.
  rewrite cancelWaiting_world in Hh.
  apply (noNew_cancelOne msg _ _ h t) in Hh; [|done].
  apply (noNew_cancelOne msg _ _ h t) in Hh; [|done].
  pose proof (noNew_clearTimeout _ _ h t Hh Hs) as Hold.
  specialize (Hinv h t Hold Hs). unfold timeoutCleared in Hh. rewrite Hinv in Hh.
  by rewrite clearTimeout_cleared in Hh.
Qed.

(** *** Errors of the wait calls *)

Lemma onLoadStatusChange_with_top navigations s :
  is_Some (top navigations) →
  ∃ s', onLoadStatusChange LoadStatusPipeline navigations s = Normal tt s'.
Proof.
  intros [t Htop]. unfold onLoadStatusChange.
  destruct (isLocationTrigger (statusTrigger (this s))).
  { destruct (match statusTriggerStartCommandId (this s) with
              | Some since => _ | None => false end); by eexists. }
  destruct (statusTriggerResolvable (this s)) as [p|]; [|by eexists].
  destruct (statusTrigger (this s)) as [trigger|]; [|by eexists].
  cbn [mbind option_bind].
  destruct (LoadStatusPipeline trigger) as [rank|]; [|by eexists].
  destruct (isResolved (world s) p || negb (truthyZ (Some rank)))%bool; [by eexists|].
  destruct (String.eqb trigger LoadStatus.PaintingStable).
  - unfold waitForPageLoaded. rewrite Htop.
    destruct (negb _ && truthyZ _)%bool; by eexists.
  - rewrite Htop. destruct (firstReaching _ _ _); by eexists.
Qed.

(** X14: [waitForLoad] throws in two cases only, and then leaves the state
    untouched: an assertion error for a status that is no load status, and
    [Not implemented] for a truthy [sinceCommandId]. *)
Theorem waitForLoad_throws status options navigations s e s' :
  waitForLoad LoadStatusPipeline isLoadStatus status options navigations s = Throw e s' →
  s' = s
  ∧ ((isLoadStatus status = false ∧ e = AssertionError ("Invalid load status: " +:+ status))
     ∨ (isLoadStatus status = true
        ∧ truthyNumber (sinceCommandId options) = true
        ∧ e = PlainError "Not implemented")).
Proof.
  unfold waitForLoad. destruct (isLoadStatus status); cbn [negb].
  2: { intros [= <- <-]. split; [done|]. by left. }
  destruct (truthyNumber (sinceCommandId options)).
  { intros [= <- <-]. split; [done|]. by right. }
  destruct (hasLoadStatus navigations status); [done|].
  destruct (top navigations) as [t|] eqn:Htop; [|done].
  destruct (onLoadStatusChange_with_top navigations
              (createStatusTriggeredPromise status (timeoutMs options) None s).2)
    as [s2 ->]; [by rewrite Htop | done].
Qed.

End Notifications.

(** *** Resource ids *)

(** X15: a [waitForNavigationResourceId] that has to wait for the resource id
    of the top entry awaits the deferred of that entry, and a later
    [cancelWaiting] rejects that deferred with a canceled-promise error that
    carries the message. *)
Theorem awaited_resource_id_is_cancelled navigations t msg s :
  allocated s →
  top navigations = Some t →
  isPending (world s) (resourceId t) = true →
  (waitForNavigationResourceId navigations s).1 = Awaits (resourceId t)
  ∧ settlementOf
      (world (cancelWaiting msg (waitForNavigationResourceId navigations s).2))
      (resourceId t)
    = Some (Rejected (CanceledPromiseError msg)).
Proof.
  intros Ha Htop Hp. unfold waitForNavigationResourceId. rewrite Htop.
  cbn [fmap option_fmap option_map this setResourceIdResolvable resourceIdResolvable world].
  pose proof Hp as Hs. apply isPending_settlementOf in Hs. unfold settlementOf in Hs.
  rewrite Hs. cbn [fst snd]. split; [done|].
  apply cancelWaiting_rejected.
  - unfold allocated, tracked in *.
    cbn [this world setResourceIdResolvable resourceIdResolvable statusTriggerResolvable].
    cbn [omap list_omap id] in *.
    assert (is_Some (deferreds (world s) !! resourceId t)) as Hr.
    { destruct (deferreds (world s) !! resourceId t); [eauto | done]. }
    destruct (resourceIdResolvable (this s)), (statusTriggerResolvable (this s));
      cbn [omap list_omap id] in *; repeat constructor; try done.
    + by inversion Ha as [|?? _ Ha']; inversion Ha'.
    + by inversion Ha.
  - apply elem_of_pendingTracked. split; [done | by left].
Qed.

Module WaitTimerFacts.
Import WaitTimer.

Lemma spliceFirst_absent t entries :
  (∀ x, x ∈ entries → timeout x ≠ t) → spliceFirst t entries = entries.
Proof.
  induction entries as [|x rest IH]; intros Hne; [done|]. cbn [spliceFirst].
  destruct (Nat.eqb (timeout x) t) eqn:He.
  - apply Nat.eqb_eq in He. destruct (Hne x); [apply elem_of_cons; by left | done].
  - f_equal. apply IH. intros y Hy. apply Hne. apply elem_of_cons. by right.
Qed.

Lemma spliceFirst_app_last t p entries :
  (∀ x, x ∈ entries → timeout x ≠ t) →
  spliceFirst t (entries ++ [{| reject := p; timeout := t |}])%list = entries.
Proof.
  induction entries as [|x rest IH]; intros Hne; cbn [app spliceFirst].
  - cbn. by rewrite Nat.eqb_refl.
  - destruct (Nat.eqb (timeout x) t) eqn:He.
    + apply Nat.eqb_eq in He. destruct (Hne x); [apply elem_of_cons; by left | done].
    + f_equal. apply IH. intros y Hy. apply Hne. apply elem_of_cons. by right.
Qed.

Lemma spliceFirst_elem t entries x :
  x ∈ spliceFirst t entries → x ∈ entries.
Proof.
  induction entries as [|y rest IH]; cbn [spliceFirst]; [done|].
  destruct (Nat.eqb (timeout y) t).
  - intros Hx. apply elem_of_cons. by right.
  - rewrite !elem_of_cons. intros [->|Hx]; [by left | right; by apply IH].
Qed.

Lemma filter_absent t entries :
  (∀ x, x ∈ entries → timeout x ≠ t) →
  List.filter (fun x => negb (Nat.eqb (timeout x) t)) entries = entries.
Proof.
  induction entries as [|x rest IH]; intros Hne; [done|]. cbn [List.filter].
  destruct (Nat.eqb (timeout x) t) eqn:He; cbn [negb].
  - apply Nat.eqb_eq in He. destruct (Hne x); [apply elem_of_cons; by left | done].
  - f_equal. apply IH. intros y Hy. apply Hne. apply elem_of_cons. by right.
Qed.

(** Removing the entry of a timeout keeps the other entries, in order. *)
Lemma spliceFirst_filter t entries :
  NoDup (timeout <$> entries) →
  spliceFirst t entries = List.filter (fun x => negb (Nat.eqb (timeout x) t)) entries.
Proof.
  induction entries as [|x rest IH]; intros Hnd; [done|].
  rewrite fmap_cons in Hnd. apply NoDup_cons in Hnd as [Hx Hnd].
  cbn [spliceFirst List.filter]. destruct (Nat.eqb (timeout x) t) eqn:He; cbn [negb].
  - apply Nat.eqb_eq in He. subst t. symmetry. apply filter_absent.
    intros y Hy Heq. apply Hx. apply list_elem_of_fmap. by exists y.
  - f_equal. by apply IH.
Qed.


Lemma heap_eq (h h' : Heap) :
  promises h = promises h' → armed h = armed h' → registries h = registries h' →
  nextHandle h = nextHandle h' → h = h'.
Proof. destruct h, h'. cbn. by intros -> -> -> ->. Qed.

Lemma rejectPromise_armed p e h : armed (rejectPromise p e h) = armed h.
Proof. unfold rejectPromise. by destruct (promises h !! p) as [[]|]. Qed.

Lemma rejectPromise_registries p e h : registries (rejectPromise p e h) = registries h.
Proof. unfold rejectPromise. by destruct (promises h !! p) as [[]|]. Qed.

Lemma rejectPromise_nextHandle p e h : nextHandle (rejectPromise p e h) = nextHandle h.
Proof. unfold rejectPromise. by destruct (promises h !! p) as [[]|]. Qed.

Lemma rejectPromise_lookup p e h q :
  promises (rejectPromise p e h) !! q
  = match promises h !! q with
    | Some Pending => if decide (q = p) then Some (Rejected e) else Some Pending
    | o => o
    end.
Proof.
  unfold rejectPromise. destruct (decide (q = p)) as [->|Hq].
  - destruct (promises h !! p) as [[]|] eqn:Hp; cbn; rewrite ?Hp; try done.
    by rewrite lookup_insert_eq.
  - destruct (promises h !! p) as [[]|] eqn:Hp; cbn; rewrite ?lookup_insert_ne by done;
      by destruct (promises h !! q) as [[]|].
Qed.

(** *** clear *)

(** X16: [clear] removes the entry of this timer from its registry and keeps
    the others in their order, disarms the timeout, leaves every deferred
    as it is, and a second [clear] changes nothing. *)
Theorem clear_removes_own_entry t r entries h :
  registry t = Some r →
  registries h !! r = Some entries →
  NoDup (timeout <$> entries) →
  registries (clear t h) !! r
  = Some (List.filter (fun x => negb (Nat.eqb (timeout x) (timerTimeout t))) entries)
  ∧ (∀ r', r' ≠ r → registries (clear t h) !! r' = registries h !! r')
  ∧ (timerTimeout t ∉ armed (clear t h))
  ∧ promises (clear t h) = promises h
  ∧ clear t (clear t h) = clear t h.
Proof.
  intros Hr He Hnd. unfold clear. rewrite Hr. cbn [clearTimeout registries armed promises nextHandle].
  split; [|split; [|split; [|split]]].
  - rewrite lookup_alter_eq, He. cbn. by rewrite spliceFirst_filter.
  - intros r' Hne. by rewrite lookup_alter_ne.
  - rewrite elem_of_difference, elem_of_singleton. tauto.
  - done.
  - apply heap_eq; cbn; try done.
    + apply set_eq. intros k. rewrite !elem_of_difference. tauto.
    + apply map_eq. intros r'. destruct (decide (r' = r)) as [->|Hne].
      * rewrite !lookup_alter_eq, He. cbn. f_equal.
        apply spliceFirst_absent. intros x Hx Heq.
        rewrite spliceFirst_filter in Hx by done.
        apply list_elem_of_In, filter_In in Hx as [_ Hx].
        apply negb_true_iff, Nat.eqb_neq in Hx. done.
      * by rewrite !lookup_alter_ne.
Qed.

(** *** construct, clear and expire *)

Lemma construct_round_trip_registries ms reg h :
  handlesBelow h →
  registries (clear (construct ms reg h).1 (construct ms reg h).2) = registries h.
Proof.
  intros [_ Hbelow]. unfold clear, construct. cbn [fst snd registry timerTimeout].
  destruct reg as [r|]; [|done]. cbn [clearTimeout registries].
  apply map_eq. intros r'. destruct (decide (r' = r)) as [->|Hne].
  - rewrite !lookup_alter_eq. destruct (registries h !! r) as [entries|] eqn:He; [|done].
    cbn. f_equal. apply spliceFirst_app_last. intros x Hx.
    specialize (Hbelow r entries x He Hx). lia.
  - by rewrite !lookup_alter_ne.
Qed.

Lemma construct_round_trip_armed ms reg h :
  handlesBelow h →
  armed (clear (construct ms reg h).1 (construct ms reg h).2) = armed h.
Proof.
  intros [Hbelow _]. unfold clear, construct. cbn [fst snd registry timerTimeout].
  assert (S (nextHandle h) ∉ armed h) as Hfresh.
  { intros Hin. specialize (Hbelow _ Hin). lia. }
  destruct reg as [r|]; cbn [clearTimeout armed]; apply set_eq; intros k;
    rewrite elem_of_difference, elem_of_union, !elem_of_singleton;
    split; try tauto; intros Hk; (split; [by right | intros ->; done]).
Qed.

(** X17: a timer that is created and then cleared leaves every registry and
    the set of armed timeouts as they were, and its deferred pending. *)
Theorem construct_then_clear ms reg h :
  handlesBelow h →
  let t := (construct ms reg h).1 in
  let h' := clear t (construct ms reg h).2 in
  registries h' = registries h
  ∧ armed h' = armed h
  ∧ promises h' !! expirePromise t = Some Pending
  ∧ isResolved t h' = false.
Proof.
  intros Hb t h'. subst t h'.
  split; [by apply construct_round_trip_registries|].
  split; [by apply construct_round_trip_armed|].
  assert (promises (clear (construct ms reg h).1 (construct ms reg h).2)
            !! expirePromise (construct ms reg h).1 = Some Pending) as Hp.
  { unfold clear, construct. cbn [fst snd registry timerTimeout expirePromise].
    destruct reg; cbn [clearTimeout promises]; by rewrite lookup_insert_eq. }
  split; [done|]. unfold isResolved. by rewrite Hp.
Qed.

(** X18: when the timeout of a new timer fires, its deferred is rejected with
    a timeout error that carries the message set last (the default one
    otherwise), the entry leaves the registry, and the timeout is no longer
    armed. *)
Theorem expire_after_construct ms reg message h :
  handlesBelow h →
  let t := (construct ms reg h).1 in
  let h1 := (construct ms reg h).2 in
  promises (expire (setMessage message t) h1) !! expirePromise t
  = Some (Rejected (TimeoutError message))
  ∧ promises (expire t h1) !! expirePromise t
    = Some (Rejected (TimeoutError "Timeout waiting"))
  ∧ isResolved t (expire t h1) = true
  ∧ registries (expire (setMessage message t) h1) = registries h
  ∧ armed (expire (setMessage message t) h1) = armed h.
Proof.
  intros Hb t h1. subst t h1.
  assert (∀ t', registry t' = reg → timerTimeout t' = S (nextHandle h) →
                expirePromise t' = nextHandle h →
                promises (expire t' (construct ms reg h).2) !! nextHandle h
                = Some (Rejected (TimeoutError (timeoutMessage t')))
                ∧ registries (expire t' (construct ms reg h).2) = registries h
                ∧ armed (expire t' (construct ms reg h).2) = armed h) as Hgen.
  { intros t' Hreg Hto Hp. unfold expire. rewrite Hp.
    split; [|split].
    - unfold clear. destruct (registry t'); cbn [clearTimeout promises];
        rewrite rejectPromise_lookup; cbn [construct snd promises];
        rewrite lookup_insert_eq; by rewrite decide_True.
    - rewrite <- (construct_round_trip_registries ms reg h Hb).
      unfold clear. rewrite Hreg, Hto. cbn [construct fst snd registry timerTimeout].
      destruct reg; cbn [clearTimeout registries]; by rewrite ?rejectPromise_registries.
    - rewrite <- (construct_round_trip_armed ms reg h Hb).
      unfold clear. rewrite Hreg, Hto. cbn [construct fst snd registry timerTimeout].
      destruct reg; cbn [clearTimeout armed]; by rewrite ?rejectPromise_armed. }
  destruct (Hgen (setMessage message (construct ms reg h).1)) as (H1 & H2 & H3); try done.
  destruct (Hgen (construct ms reg h).1) as (H4 & _); try done.
  split; [done|]. split; [done|]. split; [|done].
  unfold isResolved. cbn [construct fst expirePromise]. cbn [construct fst] in H4.
  by rewrite H4.
Qed.

(** *** expireAll *)

Lemma expireEntries_spec r error entries :
  ∀ h,
    (∀ p, promises (expireEntries r entries error h) !! p
          = match promises h !! p with
            | Some Pending =>
                if bool_decide (p ∈ reject <$> entries) then Some (Rejected error)
                else Some Pending
            | o => o
            end)
    ∧ armed (expireEntries r entries error h)
      = armed h ∖ list_to_set (timeout <$> entries)
    ∧ registries (expireEntries r entries error h)
      = match entries with [] => registries h | _ => <[r := []]> (registries h) end.
Proof.
  induction entries as [|next rest IH]; intros h.
  - cbn. split; [|split; [|done]].
    + intros p. by destruct (promises h !! p) as [[]|].
    + apply set_eq. intros k. rewrite elem_of_difference, elem_of_empty. tauto.
  - cbn [expireEntries].
    destruct (IH (rejectPromise (reject next) error
                    (clearTimeout (timeout next) (setRegistry r rest h))))
      as (Hp & Ha & Hr).
    split; [|split].
    + intros p. rewrite Hp, rejectPromise_lookup. cbn [clearTimeout setRegistry promises].
      rewrite fmap_cons.
      destruct (promises h !! p) as [[]|]; try done.
      destruct (decide (p = reject next)) as [->|Hne].
      * rewrite (bool_decide_true (reject next ∈ reject next :: _)); [done|].
        apply elem_of_cons. by left.
      * case_bool_decide as Hin.
        -- rewrite bool_decide_true; [done|]. apply elem_of_cons. by right.
        -- rewrite bool_decide_false; [done|]. rewrite elem_of_cons. tauto.
    + rewrite Ha, rejectPromise_armed. cbn [clearTimeout setRegistry armed].
      apply set_eq. intros k. rewrite fmap_cons. cbn [list_to_set foldr].
      rewrite !elem_of_difference, elem_of_union, elem_of_singleton. tauto.
    + rewrite Hr, rejectPromise_registries. cbn [clearTimeout setRegistry registries].
      destruct rest; [done|]. by rewrite insert_insert_eq.
Qed.

(** X19: [expireAll] empties the registry, disarms the timeout of every entry
    and rejects with the given error every listed deferred that is still
    pending; it leaves the settled and the unlisted deferreds, the other
    timeouts and the other registries alone. *)
Theorem expireAll_expires_all r error entries h :
  registries h !! r = Some entries →
  registries (expireAll r error h) = <[r := []]> (registries h)
  ∧ armed (expireAll r error h) = armed h ∖ list_to_set (timeout <$> entries)
  ∧ (∀ p, promises (expireAll r error h) !! p
          = match promises h !! p with
            | Some Pending =>
                if bool_decide (p ∈ reject <$> entries) then Some (Rejected error)
                else Some Pending
            | o => o
            end).
Proof.
  intros He. unfold expireAll. rewrite He.
  destruct (expireEntries_spec r error entries h) as (Hp & Ha & Hr).
  split; [|split; done]. rewrite Hr. destruct entries; [|done].
  symmetry. by apply insert_id.
Qed.

End WaitTimerFacts.

Module SessionLoaderFacts.
Import SessionLoader.

Lemma startsGroup_false g change :
  startsGroup (Some g) change = false
  ↔ timestamp change = groupTimestamp g ∧ commandId change = groupCommandId g.
Proof.
  unfold startsGroup. rewrite orb_false_iff, !negb_false_iff, String.eqb_eq, Z.eqb_eq.
  split; intros [-> ->]; done.
Qed.

(** The changes of the groups, in order, are the changes read so far. *)
Lemma assembleStep_changes st change :
  mjoin (changes <$> groupsOf (assembleStep st change))
  = (mjoin (changes <$> groupsOf st) ++ [change])%list.
Proof.
  destruct st as [finished [g|]]; unfold assembleStep, groupsOf; cbn [fst snd];
    [destruct (startsGroup (Some g) change)|];
    cbn [startsGroup fst snd option_list fmap option_fmap option_map];
    rewrite ?fmap_app, ?join_app, ?app_nil_r; cbn [fmap list_fmap mjoin list_join changes];
    rewrite ?app_nil_r, <- ?app_assoc. all: try done.
  f_equal. cbn. by rewrite !app_nil_r.
Qed.

Lemma fold_changes domChanges :
  ∀ st, mjoin (changes <$> groupsOf (fold_left assembleStep domChanges st))
        = (mjoin (changes <$> groupsOf st) ++ domChanges)%list.
Proof.
  induction domChanges as [|c rest IH]; intros st; cbn [fold_left].
  - by rewrite app_nil_r.
  - rewrite IH, assembleStep_changes. by rewrite <- app_assoc.
Qed.

(** X20: the groups partition the changes: read in order, their changes are
    the changes of the database, none lost, none repeated, none moved. *)
Theorem groups_partition_changes domChanges :
  mjoin (changes <$> assembleDomChangeGroups domChanges) = domChanges.
Proof. apply (fold_changes domChanges ([], None)). Qed.

Lemma assembleStep_wellGrouped st change :
  Forall wellGrouped (groupsOf st) → Forall wellGrouped (groupsOf (assembleStep st change)).
Proof.
  destruct st as [finished cur]. unfold assembleStep, groupsOf. cbn [fst snd].
  rewrite Forall_app. intros [Hfin Hcur].
  destruct (startsGroup cur change) eqn:Hs; cbn [fst snd].
  - rewrite !Forall_app. split; [by split|]. cbn. repeat constructor; done.
  - destruct cur as [g|]; [|done]. apply startsGroup_false in Hs as [Ht Hc].
    apply Forall_app. split; [done|]. cbn. constructor; [|constructor].
    cbn in Hcur. apply Forall_cons in Hcur as [[Hne Hall] _]. split; cbn.
    + by destruct (changes g).
    + apply Forall_app. split; [done|]. by repeat constructor.
Qed.

(** X21: no group is empty, and every change of a group has the timestamp and
    the command id of the group. *)
Theorem groups_are_homogeneous domChanges :
  Forall wellGrouped (assembleDomChangeGroups domChanges).
Proof.
  unfold assembleDomChangeGroups.
  assert (∀ st, Forall wellGrouped (groupsOf st) →
                Forall wellGrouped (groupsOf (fold_left assembleStep domChanges st))) as H.
  { induction domChanges as [|c rest IH]; intros st Hst; [done|]. cbn [fold_left].
    by apply IH, assembleStep_wellGrouped. }
  apply (H ([], None)). constructor.
Qed.

Lemma distinctNeighbours_snoc groups g g' :
  distinctNeighbours (groups ++ [g]) → ¬ sameKey g g' →
  distinctNeighbours ((groups ++ [g]) ++ [g']).
Proof.
  intros Hd Hne i a b Ha Hb.
  destruct (decide (S i < length (groups ++ [g]))%nat) as [Hlt|Hge].
  - rewrite lookup_app_l in Ha by lia. rewrite lookup_app_l in Hb by done.
    by apply (Hd i).
  - assert (length (groups ++ [g]) = S (length groups)) as Hlen
      by (rewrite length_app; cbn; lia).
    apply lookup_lt_Some in Hb as Hb'. rewrite length_app in Hb'. cbn in Hb'.
    assert (i = length groups) as -> by lia.
    rewrite lookup_app_l in Ha by lia.
    rewrite lookup_app_r, Nat.sub_diag in Ha by lia. cbn in Ha.
    rewrite lookup_app_r in Hb by lia.
    replace (S (length groups) - length (groups ++ [g]))%nat with 0%nat in Hb by lia.
    cbn in Hb. by simplify_eq.
Qed.

Lemma distinctNeighbours_replace_last groups g g' :
  distinctNeighbours (groups ++ [g]) → sameKey g g' →
  distinctNeighbours (groups ++ [g']).
Proof.
  intros Hd [Ht Hc] i a b Ha Hb.
  apply lookup_lt_Some in Hb as Hb'. rewrite length_app in Hb'. cbn in Hb'.
  destruct (decide (S i < length groups)%nat) as [Hlt|Hge].
  - rewrite lookup_app_l in Ha by lia. rewrite lookup_app_l in Hb by done.
    apply (Hd i); rewrite lookup_app_l by lia; done.
  - assert (S i = length groups) as Hi by lia.
    rewrite lookup_app_l in Ha by lia.
    rewrite lookup_app_r in Hb by lia. rewrite Hi, Nat.sub_diag in Hb.
    cbn in Hb. simplify_eq. intros [Ht' Hc'].
    apply (Hd i a g).
    + rewrite lookup_app_l by lia. done.
    + rewrite lookup_app_r by lia. by rewrite Hi, Nat.sub_diag.
    + split; congruence.
Qed.

Lemma distinctNeighbours_single g : distinctNeighbours [g].
Proof. intros i a b Ha Hb. by destruct i. Qed.

Lemma assembleStep_invariant st change :
  loopInvariant st → loopInvariant (assembleStep st change).
Proof.
  destruct st as [finished cur]. unfold loopInvariant, assembleStep, groupsOf. cbn [fst snd].
  intros [Hd Hnull]. destruct (startsGroup cur change) eqn:Hs; cbn [fst snd].
  - split; [|done]. destruct cur as [g|]; cbn [option_list] in *.
    + apply distinctNeighbours_snoc; [done|]. intros [Ht Hc]. cbn in Ht, Hc.
      unfold startsGroup in Hs. rewrite Ht, Hc, String.eqb_refl, Z.eqb_refl in Hs. done.
    + rewrite (Hnull eq_refl). apply distinctNeighbours_single.
  - destruct cur as [g|]; [|done]. cbn [fmap option_fmap option_map option_list] in *.
    split; [|done]. apply startsGroup_false in Hs as [Ht Hc].
    apply (distinctNeighbours_replace_last finished g); [done|]. by split.
Qed.

(** X22: neighbouring groups differ in timestamp or in command id: a group is
    a whole run of changes with one timestamp and one command id. *)
Theorem neighbouring_groups_differ domChanges i g g' :
  assembleDomChangeGroups domChanges !! i = Some g →
  assembleDomChangeGroups domChanges !! S i = Some g' →
  groupTimestamp g ≠ groupTimestamp g' ∨ groupCommandId g ≠ groupCommandId g'.
Proof.
  assert (∀ st, loopInvariant st → loopInvariant (fold_left assembleStep domChanges st)) as H.
  { induction domChanges as [|c rest IH]; intros st Hst; [done|]. cbn [fold_left].
    by apply IH, assembleStep_invariant. }
  destruct (H ([], None)) as [Hd _].
  { split; [|done]. intros k a b Ha. by destruct k. }
  intros Hg Hg'. specialize (Hd i g g' Hg Hg'). unfold sameKey in Hd.
  destruct (decide (groupTimestamp g = groupTimestamp g')); [|by left].
  destruct (decide (groupCommandId g = groupCommandId g')); [|by right].
  by destruct Hd.
Qed.

End SessionLoaderFacts.

Module TabFacts.
Import Tab.

Lemma find_app_None {A} (f : A → bool) l x :
  List.find f l = None → List.find f (l ++ [x])%list = if f x then Some x else None.
Proof.
  induction l as [|y l IH]; cbn; [done|]. destruct (f y); [done | exact IH].
Qed.

(** X23: [#getOrCreateFrameEnvironment] answers an environment of the frame
    asked for, which is on the list afterwards; the environments that were
    there stay in place; asked again for the same frame it answers the same
    environment and changes nothing; and it never puts a second environment
    for a frame id on the list. *)
Theorem getOrCreateFrameEnvironment_once coreFrameId st :
  let fe := (getOrCreateFrameEnvironment coreFrameId st).1 in
  let st' := (getOrCreateFrameEnvironment coreFrameId st).2 in
  frameId fe = coreFrameId
  ∧ fe ∈ frameEnvironments st'
  ∧ (frameEnvironments st' = frameEnvironments st
     ∨ frameEnvironments st' = (frameEnvironments st ++ [fe])%list)
  ∧ getOrCreateFrameEnvironment coreFrameId st' = (fe, st')
  ∧ (NoDup (frameId <$> frameEnvironments st) → NoDup (frameId <$> frameEnvironments st')).
Proof.
  unfold getOrCreateFrameEnvironment.
  destruct (List.find _ (frameEnvironments st)) as [fe|] eqn:Hfind; cbn [fst snd].
  - apply find_some in Hfind as Hfe. destruct Hfe as [Hin Hid].
    apply Z.eqb_eq in Hid. apply list_elem_of_In in Hin.
    rewrite Hfind. repeat split; try done. by left.
  - cbn [frameEnvironments]. rewrite find_app_None by done. cbn [frameId].
    rewrite Z.eqb_refl. repeat split; try done.
    + apply elem_of_app. right. apply elem_of_cons. by left.
    + by right.
    + intros Hnd. rewrite fmap_app. apply NoDup_app. split; [done|].
      split; [|apply NoDup_singleton]. intros id Hid Hnew. cbn in Hnew.
      apply list_elem_of_singleton in Hnew. subst id.
      apply list_elem_of_fmap in Hid as (x & Hx & Hin).
      apply list_elem_of_In in Hin.
      pose proof (find_none _ _ Hfind x Hin) as Hne. cbn in Hne.
      apply Z.eqb_neq in Hne. congruence.
Qed.

Lemma indexOf_fresh fe pre suf :
  (∀ x, x ∈ pre → object x ≠ object fe) →
  indexOf fe (pre ++ fe :: suf)%list = Some (length pre).
Proof.
  induction pre as [|x pre IH]; intros Hne; cbn [app indexOf length].
  - by rewrite Nat.eqb_refl.
  - destruct (Nat.eqb (object x) (object fe)) eqn:He.
    + apply Nat.eqb_eq in He. destruct (Hne x); [apply elem_of_cons; by left | done].
    + rewrite IH; [done|]. intros y Hy. apply Hne. apply elem_of_cons. by right.
Qed.

Lemma delete_middle {A} (pre : list A) x suf :
  delete (length pre) (pre ++ x :: suf)%list = (pre ++ suf)%list.
Proof. induction pre as [|y pre IH]; [done|]. cbn. f_equal. exact IH. Qed.

Lemma removeGoneLoop_sweep newFrameIds fuel :
  ∀ suf pre,
    (length suf ≤ fuel)%nat →
    NoDup (object <$> (pre ++ suf)%list) →
    removeGoneLoop fuel (length pre) newFrameIds (pre ++ suf)%list
    = (pre ++ sweep newFrameIds suf)%list.
Proof.
  induction fuel as [|fuel IH]; intros suf pre Hfuel Hnd.
  { destruct suf; [|cbn in Hfuel; lia]. cbn [removeGoneLoop sweep]. done. }
  destruct suf as [|x rest].
  - cbn [removeGoneLoop sweep]. rewrite lookup_ge_None_2; [done|]. rewrite length_app. cbn. lia.
  - cbn [removeGoneLoop sweep].
    rewrite list_lookup_middle by done.
    destruct (includes newFrameIds (frameId x)).
    + replace (pre ++ x :: rest)%list with ((pre ++ [x]) ++ rest)%list
        by (by rewrite <- app_assoc).
      replace (S (length pre)) with (length (pre ++ [x])%list)
        by (rewrite length_app; cbn; lia).
      rewrite IH; [by rewrite <- app_assoc | cbn in Hfuel; lia |].
      by rewrite <- app_assoc.
    + rewrite indexOf_fresh.
      2: { intros y Hy Heq. rewrite fmap_app in Hnd. apply NoDup_app in Hnd as (_ & Hd & _).
           apply (Hd (object y)); [apply list_elem_of_fmap; by exists y|].
           rewrite fmap_cons, Heq. apply elem_of_cons. by left. }
      cbn [splice]. rewrite delete_middle.
      assert (NoDup (object <$> (pre ++ rest)%list)) as Hnd'.
      { rewrite fmap_app in *. apply NoDup_app in Hnd as (H1 & H2 & H3).
        rewrite fmap_cons in H3. apply NoDup_cons in H3 as [_ H3].
        apply NoDup_app. split; [done|]. split; [|done].
        intros y Hy Hin. apply (H2 y Hy). rewrite fmap_cons. apply elem_of_cons. by right. }
      destruct rest as [|y rest'].
      * rewrite app_nil_r. destruct fuel; [done|]. cbn [removeGoneLoop].
        by rewrite lookup_ge_None_2 by lia.
      * replace (pre ++ y :: rest')%list with ((pre ++ [y]) ++ rest')%list
          by (by rewrite <- app_assoc).
        replace (S (length pre)) with (length (pre ++ [y])%list)
          by (rewrite length_app; cbn; lia).
        rewrite IH; [by rewrite <- app_assoc | cbn in Hfuel; lia |].
        by rewrite <- app_assoc.
Qed.

(** X24: on a list of distinct environments the loop that removes the frames
    that are gone computes [sweep], with any fuel from the length of the
    list on: it drops an environment whose frame is gone, and keeps the
    environment that follows a dropped one, gone or not. *)
Theorem removeGone_sweeps newFrameIds frames fuel :
  NoDup (object <$> frames) →
  (length frames ≤ fuel)%nat →
  removeGoneLoop fuel 0 newFrameIds frames = sweep newFrameIds frames
  ∧ removeGone newFrameIds frames = sweep newFrameIds frames.
Proof.
  intros Hnd Hfuel. split.
  - by apply (removeGoneLoop_sweep newFrameIds fuel frames []).
  - by apply (removeGoneLoop_sweep newFrameIds (length frames) frames []).
Qed.

Lemma sweep_keeps_bounded newFrameIds n :
  ∀ frames fe, (length frames ≤ n)%nat → fe ∈ frames →
               includes newFrameIds (frameId fe) = true →
               fe ∈ sweep newFrameIds frames.
Proof.
  induction n as [|n IH]; intros frames fe Hn Hin Hfe.
  { destruct frames; [by apply elem_of_nil in Hin | cbn in Hn; lia]. }
  destruct frames as [|x rest]; [by apply elem_of_nil in Hin|].
  cbn [sweep]. destruct (includes newFrameIds (frameId x)) eqn:Hx.
  - apply elem_of_cons in Hin as [->|Hin]; [apply elem_of_cons; by left|].
    apply elem_of_cons. right. apply IH; [cbn in Hn; lia | done | done].
  - apply elem_of_cons in Hin as [->|Hin]; [congruence|].
    destruct rest as [|y rest']; [by apply elem_of_nil in Hin|].
    apply elem_of_cons in Hin as [->|Hin]; [apply elem_of_cons; by left|].
    apply elem_of_cons. right. apply IH; [cbn in Hn; lia | done | done].
Qed.

Lemma sweep_sublist_bounded newFrameIds n :
  ∀ frames, (length frames ≤ n)%nat → sublist (sweep newFrameIds frames) frames.
Proof.
  induction n as [|n IH]; intros frames Hn.
  { destruct frames; [constructor | cbn in Hn; lia]. }
  destruct frames as [|x rest]; [constructor|]. cbn [sweep].
  destruct (includes newFrameIds (frameId x)).
  - apply sublist_skip. apply IH. cbn in Hn; lia.
  - destruct rest as [|y rest']; [apply sublist_nil_l|].
    apply sublist_cons. apply sublist_skip. apply IH. cbn in Hn; lia.
Qed.

(** X25: the loop only removes, keeps the order, and keeps every environment
    whose frame is still there. *)
Theorem removeGone_keeps_present newFrameIds frames :
  NoDup (object <$> frames) →
  sublist (removeGone newFrameIds frames) frames
  ∧ ∀ fe, fe ∈ frames → includes newFrameIds (frameId fe) = true →
          fe ∈ removeGone newFrameIds frames.
Proof.
  intros Hnd.
  rewrite (removeGoneLoop_sweep newFrameIds (length frames) frames [] (le_n _) Hnd : 
             removeGone newFrameIds frames = sweep newFrameIds frames).
  split; [by apply (sweep_sublist_bounded _ (length frames)) |].
  intros fe. by apply (sweep_keeps_bounded _ (length frames)).
Qed.


End TabFacts.

(** ** The further properties at concrete inputs *)

Lemma hasLocationTrigger_scope_widens_witness :
  hasLocationTrigger (timelineOf [settledEntry; reloadEntry]) LocationTrigger.reload 0 = true.
Proof.
  apply (hasLocationTrigger_scope_widens (timelineOf [settledEntry; reloadEntry])
           LocationTrigger.reload 1 0); [lia | reflexivity].
Defined.

Lemma hasLocationTrigger_history_grows_witness :
  hasLocationTrigger (timelineOf [settledEntry; reloadEntry; respondedEntry])
    LocationTrigger.reload 1 = true.
Proof.
  apply (hasLocationTrigger_history_grows (timelineOf [settledEntry; reloadEntry])
           (timelineOf [settledEntry; reloadEntry; respondedEntry]) [respondedEntry]
           LocationTrigger.reload 1); reflexivity.
Defined.

Lemma willRunCommand_after_goto_witness :
  defaultWaitForLocationCommandId
    (willRunCommand (cmd 3 "click") [cmd 1 "waitForLoad"; cmd 2 "goto"] newObserver)
  = ICommandMeta.id (cmd 2 "goto").
Proof.
  apply (willRunCommand_after_goto (cmd 3 "click") [cmd 1 "waitForLoad"; cmd 2 "goto"]
           (cmd 2 "goto") newObserver); reflexivity.
Defined.

Lemma willRunCommand_back_to_back_waits_witness :
  defaultWaitForLocationCommandId
    (willRunCommand (cmd 2 "waitForLocation") [cmd 1 "waitForElement"] newObserver)
  = ICommandMeta.id (cmd 2 "waitForLocation").
Proof.
  apply (willRunCommand_back_to_back_waits (cmd 2 "waitForLocation")
           [cmd 1 "waitForElement"] (cmd 1 "waitForElement") newObserver);
    [reflexivity | reflexivity | discriminate | reflexivity].
Defined.

Lemma waitForLocation_resolution_witness :
  ∃ p s1,
    waitForLocation LocationTrigger.reload noOptions
      (timelineAt respondedEntry false None) initialState
    = Normal (PromiseOf p) s1
    ∧ settlementOf
        (world (notifyAll examplePipeline exampleIsLoadStatus
                  [timelineOf [settledEntry; reloadEntry]] s1)) p
      = Some (if existsb
                   (fun n => hasLocationTrigger n LocationTrigger.reload
                               (default (defaultWaitForLocationCommandId (this initialState))
                                  (asInteger (sinceCommandId noOptions))))
                   [timelineOf [settledEntry; reloadEntry]]
              then Fulfilled None else Pending).
Proof.
  apply (waitForLocation_resolution examplePipeline exampleIsLoadStatus
           LocationTrigger.reload noOptions (timelineAt respondedEntry false None)
           initialState [timelineOf [settledEntry; reloadEntry]]); reflexivity.
Defined.

Lemma waitForLoad_PaintingStable_resolution_witness :
  ∃ p s1,
    waitForLoad examplePipeline exampleIsLoadStatus LoadStatus.PaintingStable noOptions
      (timelineAt domLoadedEntry false None) initialState = Normal (PromiseOf p) s1
    ∧ settlementOf
        (world (notifyAll examplePipeline exampleIsLoadStatus
                  [timelineAt paintedEntry true None] s1)) p
      = Some (if (bool_decide (is_Some (top (timelineAt domLoadedEntry false None)))
                  && stableAt (timelineAt domLoadedEntry false None))
                 || existsb stableAt [timelineAt paintedEntry true None]
              then Fulfilled None else Pending).
Proof.
  apply (waitForLoad_PaintingStable_resolution examplePipeline exampleIsLoadStatus 5
           noOptions (timelineAt domLoadedEntry false None) initialState
           [timelineAt paintedEntry true None]);
    [reflexivity | lia | reflexivity | reflexivity | reflexivity].
Defined.

Lemma paintingWaitState_registered :
  registered LoadStatus.PaintingStable 0%nat paintingWaitState.
Proof. repeat split; vm_compute; reflexivity. Qed.

Lemma settlement_timer_resolves_witness :
  ∃ h s',
    onLoadStatusChange examplePipeline (timelineAt paintedEntry false (Some 500))
      paintingWaitState = Normal tt s'
    ∧ waitingForLoadTimeout (this s') = Some h
    ∧ timers (world s') !! h
      = Some {| delay := 500;
                task := Settle (get (statusChanges paintedEntry) LoadStatus.AllContentLoaded)
                               (get (statusChanges paintedEntry) ContentPaint) |}
    ∧ settlementOf (world s') 0%nat = Some Pending
    ∧ resolved 0%nat (fireTimer h s')
    ∧ timers (world (fireTimer h s')) !! h = None.
Proof.
  apply (settlement_timer_resolves examplePipeline 5 0%nat
           (timelineAt paintedEntry false (Some 500)) paintedEntry 500 paintingWaitState);
    [reflexivity | lia | exact paintingWaitState_registered | reflexivity | reflexivity | lia].
Defined.

Lemma onLoadStatusChange_duplicate_witness :
  onLoadStatusChange examplePipeline (timelineAt domLoadedEntry false None)
    (stateOf (onLoadStatusChange examplePipeline (timelineAt domLoadedEntry false None)
                domWaitState))
  = onLoadStatusChange examplePipeline (timelineAt domLoadedEntry false None) domWaitState.
Proof.
  apply (onLoadStatusChange_duplicate examplePipeline (timelineAt domLoadedEntry false None)
           domWaitState).
  vm_compute. discriminate.
Defined.

Lemma onLoadStatusChange_throws_without_top_witness :
  top (timelineOf []) = None
  ∧ is_Some (statusTriggerResolvable (this domWaitState))
  ∧ is_Some (statusTrigger (this domWaitState) ≫= examplePipeline).
Proof.
  apply (onLoadStatusChange_throws_without_top examplePipeline (timelineOf []) domWaitState
           (TypeError "Cannot read properties of undefined") domWaitState).
  vm_compute. reflexivity.
Defined.

Lemma cancelled_wait_stays_cancelled_witness :
  notifyAll examplePipeline exampleIsLoadStatus
    [timelineOf [settledEntry; lostSlashEntry]; timelineAt domLoadedEntry false None]
    (cancelWaiting "closing" busyState)
  = cancelWaiting "closing" busyState.
Proof.
  apply (cancelled_wait_stays_cancelled examplePipeline exampleIsLoadStatus "closing"
           [timelineOf [settledEntry; lostSlashEntry]; timelineAt domLoadedEntry false None]
           busyState).
  exact busyState_allocated.
Defined.

Lemma waitForLoad_throws_witness :
  initialState = initialState
  ∧ ((exampleIsLoadStatus LoadStatus.DomContentLoaded = false
      ∧ PlainError "Not implemented"
        = AssertionError ("Invalid load status: " +:+ LoadStatus.DomContentLoaded))
     ∨ (exampleIsLoadStatus LoadStatus.DomContentLoaded = true
        ∧ truthyNumber (sinceCommandId fiveSinceCommandId) = true
        ∧ PlainError "Not implemented" = PlainError "Not implemented")).
Proof.
  apply (waitForLoad_throws examplePipeline exampleIsLoadStatus LoadStatus.DomContentLoaded
           fiveSinceCommandId (timelineAt respondedEntry false None) initialState
           (PlainError "Not implemented") initialState).
  reflexivity.
Defined.

Lemma resourceState_allocated : allocated resourceState.
Proof. by constructor. Qed.

Lemma awaited_resource_id_is_cancelled_witness :
  (waitForNavigationResourceId (timelineAt respondedEntry false None) resourceState).1
  = Awaits (resourceId respondedEntry)
  ∧ settlementOf
      (world (cancelWaiting "closing"
                (waitForNavigationResourceId (timelineAt respondedEntry false None)
                   resourceState).2))
      (resourceId respondedEntry)
    = Some (Rejected (CanceledPromiseError "closing")).
Proof.
  apply (awaited_resource_id_is_cancelled (timelineAt respondedEntry false None)
           respondedEntry "closing" resourceState);
    [exact resourceState_allocated | reflexivity | reflexivity].
Defined.

Lemma emptyRegistryHeap_handlesBelow : WaitTimer.handlesBelow emptyRegistryHeap.
Proof.
  split.
  - intros t Ht. by apply elem_of_empty in Ht.
  - intros r entries x Hr Hx. cbn in Hr.
    apply lookup_singleton_Some in Hr as [_ <-]. by apply elem_of_nil in Hx.
Qed.

Lemma clear_removes_own_entry_witness :
  WaitTimer.registries (WaitTimer.clear firstTimer twoTimersHeap) !! 0%nat
  = Some (List.filter
            (fun x => negb (Nat.eqb (WaitTimer.timeout x) (WaitTimer.timerTimeout firstTimer)))
            twoTimersEntries)
  ∧ (∀ r', r' ≠ 0%nat →
           WaitTimer.registries (WaitTimer.clear firstTimer twoTimersHeap) !! r'
           = WaitTimer.registries twoTimersHeap !! r')
  ∧ (WaitTimer.timerTimeout firstTimer
     ∉ WaitTimer.armed (WaitTimer.clear firstTimer twoTimersHeap))
  ∧ WaitTimer.promises (WaitTimer.clear firstTimer twoTimersHeap)
    = WaitTimer.promises twoTimersHeap
  ∧ WaitTimer.clear firstTimer (WaitTimer.clear firstTimer twoTimersHeap)
    = WaitTimer.clear firstTimer twoTimersHeap.
Proof.
  apply (WaitTimerFacts.clear_removes_own_entry firstTimer 0%nat twoTimersEntries
           twoTimersHeap);
    [reflexivity | vm_compute; reflexivity | apply (bool_decide_unpack _); vm_compute; exact I].
Defined.

Lemma construct_then_clear_witness :
  let t := (WaitTimer.construct 100 (Some 0%nat) emptyRegistryHeap).1 in
  let h' := WaitTimer.clear t (WaitTimer.construct 100 (Some 0%nat) emptyRegistryHeap).2 in
  WaitTimer.registries h' = WaitTimer.registries emptyRegistryHeap
  ∧ WaitTimer.armed h' = WaitTimer.armed emptyRegistryHeap
  ∧ WaitTimer.promises h' !! WaitTimer.expirePromise t = Some Pending
  ∧ WaitTimer.isResolved t h' = false.
Proof.
  apply (WaitTimerFacts.construct_then_clear 100 (Some 0%nat) emptyRegistryHeap).
  exact emptyRegistryHeap_handlesBelow.
Defined.

Lemma expire_after_construct_witness :
  let t := (WaitTimer.construct 100 (Some 0%nat) emptyRegistryHeap).1 in
  let h1 := (WaitTimer.construct 100 (Some 0%nat) emptyRegistryHeap).2 in
  WaitTimer.promises (WaitTimer.expire (WaitTimer.setMessage "Timeout waiting for load" t) h1)
    !! WaitTimer.expirePromise t
  = Some (Rejected (TimeoutError "Timeout waiting for load"))
  ∧ WaitTimer.promises (WaitTimer.expire t h1) !! WaitTimer.expirePromise t
    = Some (Rejected (TimeoutError "Timeout waiting"))
  ∧ WaitTimer.isResolved t (WaitTimer.expire t h1) = true
  ∧ WaitTimer.registries
      (WaitTimer.expire (WaitTimer.setMessage "Timeout waiting for load" t) h1)
    = WaitTimer.registries emptyRegistryHeap
  ∧ WaitTimer.armed (WaitTimer.expire (WaitTimer.setMessage "Timeout waiting for load" t) h1)
    = WaitTimer.armed emptyRegistryHeap.
Proof.
  apply (WaitTimerFacts.expire_after_construct 100 (Some 0%nat) "Timeout waiting for load"
           emptyRegistryHeap).
  exact emptyRegistryHeap_handlesBelow.
Defined.

Lemma expireAll_expires_all_witness :
  WaitTimer.registries (WaitTimer.expireAll 0%nat (CanceledPromiseError "closing") twoTimersHeap)
  = <[0%nat := []]> (WaitTimer.registries twoTimersHeap)
  ∧ WaitTimer.armed (WaitTimer.expireAll 0%nat (CanceledPromiseError "closing") twoTimersHeap)
    = WaitTimer.armed twoTimersHeap ∖ list_to_set (WaitTimer.timeout <$> twoTimersEntries)
  ∧ (∀ p, WaitTimer.promises
            (WaitTimer.expireAll 0%nat (CanceledPromiseError "closing") twoTimersHeap) !! p
          = match WaitTimer.promises twoTimersHeap !! p with
            | Some Pending =>
                if bool_decide (p ∈ WaitTimer.reject <$> twoTimersEntries)
                then Some (Rejected (CanceledPromiseError "closing"))
                else Some Pending
            | o => o
            end).
Proof.
  apply (WaitTimerFacts.expireAll_expires_all 0%nat (CanceledPromiseError "closing")
           twoTimersEntries twoTimersHeap).
  vm_compute. reflexivity.
Defined.

Lemma neighbouring_groups_differ_witness :
  SessionLoader.groupTimestamp firstGroup ≠ SessionLoader.groupTimestamp secondGroup
  ∨ SessionLoader.groupCommandId firstGroup ≠ SessionLoader.groupCommandId secondGroup.
Proof.
  apply (SessionLoaderFacts.neighbouring_groups_differ threeChanges 0%nat
           firstGroup secondGroup); reflexivity.
Defined.

Lemma fourFrames_NoDup : NoDup (Tab.object <$> fourFrames).
Proof. apply (bool_decide_unpack _). vm_compute. exact I. Qed.

Lemma removeGone_sweeps_witness :
  Tab.removeGoneLoop 7 0 [10; 13] fourFrames = Tab.sweep [10; 13] fourFrames
  ∧ Tab.removeGone [10; 13] fourFrames = Tab.sweep [10; 13] fourFrames.
Proof.
  apply (TabFacts.removeGone_sweeps [10; 13] fourFrames 7);
    [exact fourFrames_NoDup | vm_compute; lia].
Defined.

Lemma removeGone_keeps_present_witness :
  sublist (Tab.removeGone [10; 13] fourFrames) fourFrames
  ∧ ∀ fe, fe ∈ fourFrames → Tab.includes [10; 13] (Tab.frameId fe) = true →
          fe ∈ Tab.removeGone [10; 13] fourFrames.
Proof.
  apply (TabFacts.removeGone_keeps_present [10; 13] fourFrames). exact fourFrames_NoDup.
Defined.


(** The loop at work: of the two neighbours whose frames are gone, the
    second survives. *)
Example removeGone_fourFrames :
  Tab.removeGone [10; 13] fourFrames = [frame 0 10; frame 2 12; frame 3 13].
Proof. vm_compute. reflexivity. Qed.
